(** * cvi42py: contour extraction from cvi42 XML workspaces

    A shallow embedding of [src/cvi42py.py] and the properties of its
    tree walker ([traverse_node]) and contour extractor
    ([parse_contours]).

    The DOM is the one [xml.dom.minidom] hands to the program; Python
    exceptions are an explicit error result; the dictionaries the program
    mutates are threaded through as finite maps; coordinates are IEEE 754
    binary64 numbers, as Python's [float] and NumPy's [float64] are. *)

From Stdlib Require Import ZArith Ascii String Floats.
From stdpp Require Import base option list gmap strings.

Open Scope Z_scope.
Open Scope string_scope.
Open Scope list_scope.

(** * Exceptions and results *)

(** The exceptions the modelled code paths can raise. *)
Inductive exn :=
| IndexError      (* [seq[0]] on an empty sequence *)
| AttributeError  (* [.data] on [None] or on a node without data *)
| ValueError      (* [float(s)] / [int(s)] on a string that is no numeral *)
| OverflowError   (* an [int] too large for a binary64 *)
| RecursionError  (* calls nested beyond the interpreter's limit *)
| ExpatError      (* the document is not well-formed XML *)
| OSError.        (* a file cannot be opened or written *)

(** The spec's MalformedRecord class: whatever extraction itself raises,
    as opposed to XML syntax and I/O failures. *)
Definition MalformedRecord (e : exn) : bool :=
  match e with
  | IndexError | AttributeError | ValueError | OverflowError => true
  | RecursionError | ExpatError | OSError => false
  end.

Inductive result (A : Type) :=
| Ok (a : A)
| Raise (e : exn).
Arguments Ok {A} a.
Arguments Raise {A} e.

#[global] Instance result_ret : MRet result := @Ok.
#[global] Instance result_bind : MBind result := λ A B f m,
  match m with
  | Ok a => f a
  | Raise e => Raise e
  end.

(** A [for] loop that updates a state and stops at the first exception. *)
Definition for_each {A S : Type} (body : A → S → result S) : list A → S → result S :=
  fix go (xs : list A) (s : S) : result S :=
    match xs with
    | [] => Ok s
    | x :: xs' => s' ← body x s; go xs' s'
    end.

(** Collecting the results of [f] in order; the functional reading of a
    loop that appends [f x] to a list. *)
Fixpoint mapM {A B : Type} (f : A → result B) (xs : list A) : result (list B) :=
  match xs with
  | [] => Ok []
  | x :: xs' => y ← f x; ys ← mapM f xs'; mret (y :: ys)
  end.

(** * The minidom tree *)

Inductive node_type :=
| ELEMENT_NODE
| TEXT_NODE
| CDATA_SECTION_NODE
| PROCESSING_INSTRUCTION_NODE
| COMMENT_NODE
| DOCUMENT_NODE
| DOCUMENT_TYPE_NODE.

#[global] Instance node_type_eq_dec : EqDecision node_type.
Proof. solve_decision. Defined.

(** The node classes that carry a [data] attribute and have no children. *)
Inductive data_kind := Text | CDATASection | ProcessingInstruction | Comment.

Unset Elimination Schemes.
Inductive node :=
| Document (children : list node)
| Element (tag : string) (attrs : gmap string string) (children : list node)
| CharacterData (kind : data_kind) (text : string)
| DocumentType (name : string).
Set Elimination Schemes.

Definition nodeType (n : node) : node_type :=
  match n with
  | Document _ => DOCUMENT_NODE
  | Element _ _ _ => ELEMENT_NODE
  | CharacterData Text _ => TEXT_NODE
  | CharacterData CDATASection _ => CDATA_SECTION_NODE
  | CharacterData ProcessingInstruction _ => PROCESSING_INSTRUCTION_NODE
  | CharacterData Comment _ => COMMENT_NODE
  | DocumentType _ => DOCUMENT_TYPE_NODE
  end.

Definition childNodes (n : node) : list node :=
  match n with
  | Document cs | Element _ _ cs => cs
  | CharacterData _ _ | DocumentType _ => []
  end.

Definition firstChild (n : node) : option node := head (childNodes n).

(** [Element.getAttribute]: the attribute's value, [""] when it is absent.
    The program calls it on element nodes only. *)
Definition getAttribute (n : node) (attname : string) : string :=
  match n with
  | Element _ attrs _ => default "" (attrs !! attname)
  | _ => ""
  end.

(** [n.data] *)
Definition data (n : node) : result string :=
  match n with
  | CharacterData _ d => Ok d
  | _ => Raise AttributeError
  end.

(** [n.firstChild.data] *)
Definition firstChild_data (n : node) : result string :=
  match firstChild n with
  | None => Raise AttributeError
  | Some c => data c
  end.

(** [seq[0]] *)
Definition item0 {A : Type} (seq : list A) : result A :=
  match seq with
  | [] => Raise IndexError
  | x :: _ => Ok x
  end.

(** The proper descendants of a node, in document order. *)
Fixpoint descendants (n : node) : list node :=
  let below := fix below (cs : list node) : list node :=
    match cs with
    | [] => []
    | c :: cs' => c :: descendants c ++ below cs'
    end in
  match n with
  | Document cs | Element _ _ cs => below cs
  | CharacterData _ _ | DocumentType _ => []
  end.

Definition tag_matches (name : string) (n : node) : Prop :=
  match n with
  | Element t _ _ => name = "*" ∨ t = name
  | _ => False
  end.

#[global] Instance tag_matches_dec name n : Decision (tag_matches name n).
Proof. destruct n; simpl; apply _. Defined.

(** [n.getElementsByTagName(name)]: the descendant elements with that tag,
    in document order. *)
Definition getElementsByTagName (n : node) (name : string) : list node :=
  filter (tag_matches name) (descendants n).

(** * The Python and NumPy primitives *)

Definition point : Type := float * float.

Abbreviation contour_set := (gmap string (list point)).
Abbreviation catalog := (gmap string (gmap string (list point))).

(** [float(s)], [int(s)], [minidom.parse(path)], [open(path, "wb")] and
    [pickle.dump] into the opened file belong to the runtime, and so does
    the room the interpreter's recursion limit leaves; the development is
    parametric in them.  For the numerals [None] is [ValueError].

    [recursion_budget] is a number of nested calls of [traverse_node] that
    the interpreter has room for when [parse_file] makes the first, with
    room left for what a call itself makes: [parse_contours] and minidom's
    [getElementsByTagName], which recurses over the record it searches and
    so no deeper than the tree is high.  The program never raises the
    interpreter's limit (1000 frames unless changed), and the traversal
    calls itself once for every level of the tree, so nesting beyond the
    budget is [RecursionError].
    [open_wb] creates or truncates the file unless it raises, whatever it
    raises; [pickle_dump] stands for writing the pickle and closing the
    file. *)
Class Runtime := {
  py_float : string → option float;
  py_int : string → option Z;
  minidom_parse : string → result node;
  recursion_budget : nat;
  open_wb : string → result unit;
  pickle_dump : string → catalog → result unit;
}.

Definition value_or_error {A : Type} (o : option A) : result A :=
  match o with
  | Some a => Ok a
  | None => Raise ValueError
  end.

(** The binary64 nearest to an integer (ties to even); an integer beyond
    the binary64 range does not convert. *)
Definition float_of_int (z : Z) : result float :=
  match binary_normalize prec emax z 0 false with
  | S754_infinity _ => Raise OverflowError
  | sf => Ok (SF2Prim sf)
  end.

Definition divide_point (s : float) (p : point) : point :=
  (p.1 / s, p.2 / s)%float.

(** [np.array(points) / sub]: every coordinate divided by [float64(sub)]. *)
Definition np_true_divide (points : list point) (sub : Z) : result (list point) :=
  s ← float_of_int sub;
  mret (divide_point s <$> points).

(** * The program *)

Definition keep_element_nodes (nodes : list node) : list node :=
  filter (λ n, nodeType n = ELEMENT_NODE) nodes.

Definition key (n : node) : string := getAttribute n "Hash:key".

Section Program.
Context `{!Runtime}.

(** [float(child3.getElementsByTagName(tag)[0].firstChild.data)] *)
Definition coordinate (child3 : node) (tag : string) : result float :=
  e ← item0 (getElementsByTagName child3 tag);
  d ← firstChild_data e;
  value_or_error (py_float d).

(** One point record: lines 41-43. *)
Definition parse_point (child3 : node) : result point :=
  x ← coordinate child3 "Point:x";
  y ← coordinate child3 "Point:y";
  mret (x, y).

(** The body of the loop over a contour's children: lines 39-46. *)
Definition scan_child (child2 : node) (st : list point * Z) : result (list point * Z) :=
  points ←
    (if decide (key child2 = "Points") then
       for_each (λ child3 points, p ← parse_point child3; mret (points ++ [p]))
                (keep_element_nodes (childNodes child2)) st.1
     else mret st.1);
  sub ←
    (if decide (key child2 = "SubpixelResolution") then
       d ← firstChild_data child2; value_or_error (py_int d)
     else mret st.2);
  mret (points, sub).

(** The points of one contour: lines 35-48. *)
Definition contour_points (child : node) : result (list point) :=
  st ← for_each scan_child (keep_element_nodes (childNodes child)) ([], 1);
  np_true_divide st.1 st.2.

(** The body of the loop over the contours: lines 34-49. *)
Definition parse_contour (child : node) (contours : contour_set) : result contour_set :=
  let contour_name := key child in
  points ← contour_points child;
  mret (<[contour_name := points]> contours).

Definition parse_contours (n : node) : result contour_set :=
  for_each parse_contour (keep_element_nodes (childNodes n)) ∅.

(** The body of the loop over an image's children: lines 67-70.
    [if contours:] is the truth value of a dict: its length is not 0. *)
Definition store_contours (uid : string) (child3 : node) (uid_contours : catalog) : result catalog :=
  if decide (key child3 = "Contours") then
    contours ← parse_contours child3;
    mret (if decide (size contours ≠ 0%nat) then <[uid := contours]> uid_contours
          else uid_contours)
  else mret uid_contours.

(** The body of the loop over the children of an "ImageStates" node:
    lines 65-70. *)
Definition image_step (child2 : node) (uid_contours : catalog) : result catalog :=
  let uid := key child2 in
  for_each (store_contours uid) (keep_element_nodes (childNodes child2)) uid_contours.

Definition is_ImageStates (child : node) : Prop :=
  nodeType child = ELEMENT_NODE ∧ key child = "ImageStates".

#[global] Instance is_ImageStates_dec child : Decision (is_ImageStates child).
Proof. unfold is_ImageStates. apply _. Defined.

(** Lines 63-70. *)
Definition visit (child : node) (uid_contours : catalog) : result catalog :=
  if decide (is_ImageStates child) then
    for_each image_step (keep_element_nodes (childNodes child)) uid_contours
  else mret uid_contours.

(** [traverse_node] with [frames] nested calls of itself left, this one
    included.  The [while child:] loop walks [node.childNodes] from
    [firstChild] along [nextSibling]; the recursive call is made for every
    child, whatever its type, and takes a frame. *)
Fixpoint traverse_node_in (frames : nat) (n : node) (uid_contours : catalog)
  : result catalog :=
  match frames with
  | O => Raise RecursionError
  | S frames' =>
      for_each (λ child uid_contours,
                  uid_contours ← visit child uid_contours;
                  traverse_node_in frames' child uid_contours)
               (childNodes n) uid_contours
  end.

(** [traverse_node] as [parse_file] calls it. *)
Definition traverse_node (n : node) (uid_contours : catalog) : result catalog :=
  traverse_node_in recursion_budget n uid_contours.

(** [parse_file]: the files are a map from path to the catalog that the
    path holds as a complete pickle.  The output file is opened only after
    the traversal has returned; once opened it is truncated, so a write
    that fails leaves no pickle at the path.  The result is paired with
    the files afterwards. *)
Definition parse_file (xml_name coord_file : string) (fs : gmap string catalog)
  : result unit * gmap string catalog :=
  match dom ← minidom_parse xml_name; traverse_node dom ∅ with
  | Ok uid_contours =>
      match open_wb coord_file with
      | Ok _ =>
          match pickle_dump coord_file uid_contours with
          | Ok _ => (Ok (), <[coord_file := uid_contours]> fs)
          | Raise e => (Raise e, delete coord_file fs)
          end
      | Raise e => (Raise e, fs)
      end
  | Raise e => (Raise e, fs)
  end.

End Program.

(** * The traversal, read as lists

    What the loops of the program range over, as plain lists in the order
    the program meets them. *)

Definition is_Points (n : node) : Prop := key n = "Points".
Definition is_SubpixelResolution (n : node) : Prop := key n = "SubpixelResolution".
Definition is_Contours (n : node) : Prop := key n = "Contours".

#[global] Instance is_Points_dec n : Decision (is_Points n).
Proof. unfold is_Points. apply _. Defined.
#[global] Instance is_SubpixelResolution_dec n : Decision (is_SubpixelResolution n).
Proof. unfold is_SubpixelResolution. apply _. Defined.
#[global] Instance is_Contours_dec n : Decision (is_Contours n).
Proof. unfold is_Contours. apply _. Defined.

(** The point records of a contour, in document order: the element
    children of its "Points" children. *)
Definition records (child : node) : list node :=
  child2 ← filter is_Points (keep_element_nodes (childNodes child));
  keep_element_nodes (childNodes child2).

(** The "SubpixelResolution" children of a contour, in document order. *)
Definition resolutions (child : node) : list node :=
  filter is_SubpixelResolution (keep_element_nodes (childNodes child)).

(** The "ImageStates" regions below a node, in document order. *)
Definition regions (n : node) : list node :=
  filter is_ImageStates (descendants n).

(** The (image UID, "Contours" node) pairs of one region, in document
    order. *)
Definition images (region : node) : list (string * node) :=
  child2 ← keep_element_nodes (childNodes region);
  child3 ← filter is_Contours (keep_element_nodes (childNodes child2));
  [(key child2, child3)].

(** Every (image UID, "Contours" node) pair below a node: region by region,
    the regions in document order. *)
Definition occurrences (n : node) : list (string * node) :=
  region ← regions n; images region.

(** Every node below [parent], with its parent and grandparent, in
    document order. *)
Fixpoint relatives (grandparent parent : node) {struct parent}
  : list (node * node * node) :=
  let below := fix below (cs : list node) : list (node * node * node) :=
    match cs with
    | [] => []
    | c :: cs' => (grandparent, parent, c) :: relatives parent c ++ below cs'
    end in
  match parent with
  | Document cs | Element _ _ cs => below cs
  | CharacterData _ _ | DocumentType _ => []
  end.

(** A "Contours" element whose parent is an element and whose grandparent
    is a region is read for the image that the parent stands for. *)
Definition contours_of (t : node * node * node) : list (string * node) :=
  let '(region, image, contours_node) := t in
  if decide (is_ImageStates region ∧ nodeType image = ELEMENT_NODE ∧
             nodeType contours_node = ELEMENT_NODE ∧ is_Contours contours_node)
  then [(key image, contours_node)] else [].

(** The (image UID, "Contours" node) pairs below a node in document order:
    ordered by where the "Contours" node is in the tree. *)
Definition document_order (doc : node) : list (string * node) :=
  relatives (Document []) doc ≫= contours_of.

(** No region lies inside another. *)
Definition unnested (doc : node) : Prop :=
  ∀ region d, region ∈ regions doc → d ∈ descendants region → ¬ is_ImageStates d.

(** The calls of [traverse_node] that a node nests: one for the node and
    as many as its deepest child needs. *)
Fixpoint height (n : node) : nat :=
  match n with
  | Document cs | Element _ _ cs => S (foldr Nat.max O (height <$> cs))
  | CharacterData _ _ | DocumentType _ => 1%nat
  end.

(** A coordinate element without text: none of its children is a text or
    CDATA node. *)
Definition no_text_payload (e : node) : Prop :=
  filter (λ c, nodeType c = TEXT_NODE ∨ nodeType c = CDATA_SECTION_NODE)
         (childNodes e) = [].

(** A point record without a "Point:x" descendant, without a "Point:y"
    descendant, or whose matched coordinate element has no text. *)
Definition without_coordinate_text (rec : node) : Prop :=
  getElementsByTagName rec "Point:x" = [] ∨
  getElementsByTagName rec "Point:y" = [] ∨
  ∃ tag e, (tag = "Point:x" ∨ tag = "Point:y") ∧
           head (getElementsByTagName rec tag) = Some e ∧ no_text_payload e.

(** A point record the extractor cannot read: the first element tagged
    [tag] below it is missing, or has no first child carrying data. *)
Definition lacks_coordinate (rec : node) (tag : string) : Prop :=
  match getElementsByTagName rec tag with
  | [] => True
  | e :: _ => firstChild_data e = Raise AttributeError
  end.

Definition malformed_record (rec : node) : Prop :=
  lacks_coordinate rec "Point:x" ∨ lacks_coordinate rec "Point:y".

(** The point records the traversal reaches: under a region, an image, a
    "Contours" node, a contour and a "Points" node. *)
Definition extracted_record (doc rec : node) : Prop :=
  ∃ uid contours_node contour,
    (uid, contours_node) ∈ occurrences doc ∧
    contour ∈ keep_element_nodes (childNodes contours_node) ∧
    rec ∈ records contour.

Section Readings.
Context `{!Runtime}.

(** [int(child2.firstChild.data)] *)
Definition resolution (child2 : node) : result Z :=
  d ← firstChild_data child2; value_or_error (py_int d).

(** The scale factor left by a scan that met the given
    "SubpixelResolution" children, starting from [sub]. *)
Definition scale_from (sub : Z) (rs : list node) : result Z :=
  for_each (λ child2 _, resolution child2) rs sub.

(** What one (image UID, "Contours" node) pair does to the catalog. *)
Definition store (o : string * node) (uid_contours : catalog) : result catalog :=
  contours ← parse_contours o.2;
  mret (if decide (size contours ≠ 0%nat) then <[o.1 := contours]> uid_contours
        else uid_contours).

End Readings.

(** A binary64 that is infinite or not a number. *)
Definition not_finite (f : float) : Prop :=
  match Prim2SF f with
  | S754_nan | S754_infinity _ => True
  | S754_zero _ | S754_finite _ _ _ => False
  end.

(** An element without a "Hash:key" attribute. *)
Definition has_no_key (n : node) : Prop :=
  match n with
  | Element _ attrs _ => attrs !! "Hash:key" = None
  | _ => False
  end.

(** * Loops that fill a dictionary

    Both [parse_contours] and the traversal run a loop whose iteration
    computes a value and stores it under a name, the traversal only when
    the value is kept. *)

Definition fill {A V : Type} (name : A → string) (value : A → result V)
    (keep : V → bool) (x : A) (m : gmap string V) : result (gmap string V) :=
  v ← value x;
  mret (if keep v then <[name x := v]> m else m).

(** * A runtime for the examples

    Plain ASCII decimal numerals, a fragment of what [float] and [int]
    accept; on it both agree with Python.  The input files are a map from
    path to the tree [minidom.parse] builds for them.  There is room for
    900 nested calls, below CPython's default limit of 1000.  The empty
    path cannot be opened, a path with a NUL character is refused with
    [ValueError], and writing to "/dev/full" fails. *)

Definition digit_value (c : ascii) : option Z :=
  let n := Z.of_N (N_of_ascii c) in
  if decide (48 ≤ n ≤ 57)%Z then Some (n - 48) else None.

Fixpoint digits_from (acc : Z) (s : string) : option Z :=
  match s with
  | EmptyString => Some acc
  | String c s' => d ← digit_value c; digits_from (10 * acc + d) s'
  end.

Definition natural (s : string) : option Z :=
  if decide (s = "") then None else digits_from 0 s.

Definition decimal_int (s : string) : option Z :=
  match s with
  | String "-" s' => Z.opp <$> natural s'
  | _ => natural s
  end.

(** An integer numeral below 2^53 is a binary64 exactly. *)
Definition decimal_float (s : string) : option float :=
  z ← decimal_int s;
  if decide (Z.abs z < 2 ^ 53)%Z then
    match float_of_int z with Ok f => Some f | Raise _ => None end
  else None.

Fixpoint has_nul (s : string) : bool :=
  match s with
  | EmptyString => false
  | String c s' => bool_decide (c = Ascii.zero) || has_nul s'
  end.

Definition decimal_runtime (disk : gmap string node) : Runtime := {|
  py_float := decimal_float;
  py_int := decimal_int;
  minidom_parse path :=
    match disk !! path with
    | Some dom => Ok dom
    | None => Raise OSError
    end;
  recursion_budget := 900;
  open_wb path :=
    if has_nul path then Raise ValueError
    else if decide (path = "") then Raise OSError
    else Ok ();
  pickle_dump path _ := if decide (path = "/dev/full") then Raise OSError else Ok ();
|}.

(** * Example documents *)

Definition item (k : string) (children : list node) : node :=
  Element "Hash:item" {[ "Hash:key" := k ]} children.

Definition text_node (d : string) : node := CharacterData Text d.

Definition whitespace : node := text_node " ".

Definition leaf (tag d : string) : node := Element tag ∅ [text_node d].

Definition point_record (x y : string) : node :=
  Element "List:item" ∅ [leaf "Point:x" x; leaf "Point:y" y].

(** A document with no "ImageStates" region. *)
Definition plain_document : node :=
  Document [DocumentType "cvi42";
            Element "root" ∅
              [whitespace;
               item "Contours" [item "lv" [item "Points" [point_record "1" "2"]]];
               CharacterData Comment "ImageStates"]].

(** Two raw points and a subpixel resolution of 2. *)
Definition scaled_contour : node :=
  item "lv"
    [whitespace;
     item "Points" [whitespace; point_record "10" "20"; whitespace; point_record "30" "40"];
     whitespace;
     item "SubpixelResolution" [text_node "2"]].

(** One raw point and no "SubpixelResolution" child. *)
Definition unscaled_contour : node :=
  item "rv" [item "Points" [point_record "7" "9"]].

(** Two "SubpixelResolution" children, one on each side of the points. *)
Definition resolution_2 : node := item "SubpixelResolution" [text_node "2"].
Definition resolution_4 : node := item "SubpixelResolution" [text_node "4"].

Definition rescaled_contour : node :=
  item "epi" [resolution_2; item "Points" [point_record "8" "12"]; resolution_4].

(** A contour without point records. *)
Definition pointless_contour : node :=
  item "scar" [item "SubpixelResolution" [text_node "4"]; item "Points" [whitespace]].

(** A contour, and an image, without a "Hash:key" attribute. *)
Definition keyless_contour : node :=
  Element "Hash:item" ∅ [item "Points" [point_record "1" "2"]].

Definition keyless_contours : node :=
  item "Contours" [scaled_contour; keyless_contour].

Definition keyless_image : node :=
  Element "Hash:item" ∅ [item "Contours" [unscaled_contour]].

Definition keyless_document : node :=
  Document [Element "root" ∅ [item "ImageStates" [keyless_image]]].

(** The name "lv" twice under one "Contours" node. *)
Definition relabelled_contour : node :=
  item "lv" [item "Points" [point_record "3" "4"]].

Definition repeated_name_contours : node :=
  item "Contours" [unscaled_contour; scaled_contour; pointless_contour;
                   relabelled_contour; rescaled_contour].

(** One image whose only contour is named and has no points. *)
Definition named_empty_contours : node := item "Contours" [item "lv" []].

Definition named_empty_document : node :=
  Document [Element "root" ∅
    [item "ImageStates" [item "1.2.3" [named_empty_contours]]]].

(** One image whose "Contours" node holds no contour. *)
Definition no_contour_document : node :=
  Document [Element "root" ∅
    [item "ImageStates" [item "1.2.3" [item "Contours" [whitespace]];
                         item "4.5.6" [item "Contours" [unscaled_contour]]]]].

Definition no_contour_catalog : catalog :=
  {[ "4.5.6" := {[ "rv" := [(7, 9)%float] ]} ]}.

(** A "Points" node outside any region, with a record that has no
    "Point:y". *)
Definition stray_record : node := Element "List:item" ∅ [leaf "Point:x" "1"].

Definition stray_points : node := item "Points" [stray_record].

Definition stray_points_document : node :=
  Document [Element "root" ∅ [item "Study" [stray_points]]].

(** The same record where the traversal reads it. *)
Definition malformed_contour : node := item "lv" [stray_points].

Definition malformed_contours : node :=
  item "Contours" [unscaled_contour; malformed_contour].

Definition malformed_document : node :=
  Document [Element "root" ∅
    [item "ImageStates" [item "1.2.3" [malformed_contours]]]].

(** The UID "1.2.3" under two regions, the first of them nested in an
    image of the second. *)
Definition early_contours : node := item "Contours" [item "first" []].
Definition late_contours : node := item "Contours" [item "second" []].
Definition early_image : node := item "1.2.3" [early_contours].
Definition late_image : node := item "1.2.3" [late_contours].
Definition inner_region : node := item "ImageStates" [early_image].
Definition outer_region : node :=
  item "ImageStates" [item "0.0.0" [inner_region]; late_image].

Definition nested_regions_document : node :=
  Document [Element "root" ∅ [outer_region]].

Definition early_set : gmap string (list point) := {[ "first" := [] ]}.
Definition late_set : gmap string (list point) := {[ "second" := [] ]}.

(** The UID "1.2.3" under two regions side by side. *)
Definition empty_contours : node := item "Contours" [].

Definition side_by_side_document : node :=
  Document [Element "root" ∅
    [item "ImageStates" [early_image];
     item "Series" [item "ImageStates" [late_image; item "7.8.9" [empty_contours]]]]].

(** The resolution ahead of the points, and a resolution of 0. *)
Definition prescaled_contour : node :=
  item "lv"
    [resolution_2; item "Points" [point_record "10" "20"; point_record "30" "40"]].

Definition resolution_0 : node := item "SubpixelResolution" [text_node "0"].

Definition unscalable_contour : node :=
  item "lv" [item "Points" [point_record "7" "9"]; resolution_0].

(** A resolution that is no numeral, after a contour that can be read and
    ahead of a malformed record. *)
Definition unreadable_contour : node :=
  item "rv" [item "SubpixelResolution" [text_node "fine"]].

Definition unreadable_contours : node :=
  item "Contours" [unscaled_contour; unreadable_contour; malformed_contour].

Definition unreadable_document : node :=
  Document [Element "root" ∅
    [item "ImageStates" [item "1.2.3" [item "Contours" [unscaled_contour]];
                         item "4.5.6" [unreadable_contours]]]].

(** A record whose "Point:x" holds a comment and no text. *)
Definition commented_record : node :=
  Element "List:item" ∅
    [Element "Point:x" ∅ [CharacterData Comment "5"]; leaf "Point:y" "6"].

Definition commented_document : node :=
  Document [Element "root" ∅
    [item "ImageStates"
       [item "1.2.3" [item "Contours" [item "lv" [item "Points" [commented_record]]]]]]].

Definition commented_catalog : catalog :=
  {[ "1.2.3" := {[ "lv" := [(5, 6)%float] ]} ]}.

(** Elements nested [depth] deep around [inner]. *)
Fixpoint nest (depth : nat) (inner : list node) : node :=
  match depth with
  | O => Element "Hash:item" ∅ inner
  | S depth' => Element "Hash:item" ∅ [nest depth' inner]
  end.

(** 1500 nested elements and no region. *)
Definition deep_plain_document : node := Document [nest 1500 []].

(** The same nesting ahead of a region with a malformed record. *)
Definition deep_malformed_document : node :=
  Document [Element "root" ∅
    [nest 1500 [];
     item "ImageStates" [item "1.2.3" [malformed_contours]]]].

(** The files of the examples. *)
Definition example_disk : gmap string node :=
  {[ "plain.xml" := plain_document;
     "stray.xml" := stray_points_document;
     "malformed.xml" := malformed_document;
     "commented.xml" := commented_document;
     "deep.xml" := deep_plain_document;
     "deep-malformed.xml" := deep_malformed_document ]}.

Definition example_runtime : Runtime := decimal_runtime example_disk.

(** A second set of files, for [parse_file]. *)
Definition study_disk : gmap string node :=
  {[ "study.xml" := side_by_side_document;
     "unreadable.xml" := unreadable_document ]}.

Definition study_runtime : Runtime := decimal_runtime study_disk.

(** What [parse_contours] returns for [repeated_name_contours]. *)
Definition repeated_name_set : gmap string (list point) :=
  {[ "rv" := [(7, 9)%float]; "lv" := [(3, 4)%float]; "scar" := [];
     "epi" := [(2, 3)%float] ]}.

(** An artifact left by an earlier run. *)
Definition earlier_files : gmap string catalog :=
  {[ "out.pickle" := {[ "9.9.9" := early_set ]};
     "other.pickle" := {[ "1.2.3" := early_set ]} ]}.

(** * Induction on trees *)

Section NodeInduction.
Variable P : node → Prop.
Hypothesis P_document : ∀ cs, Forall P cs → P (Document cs).
Hypothesis P_element : ∀ t a cs, Forall P cs → P (Element t a cs).
Hypothesis P_data : ∀ k d, P (CharacterData k d).
Hypothesis P_doctype : ∀ name, P (DocumentType name).

Fixpoint node_ind (n : node) : P n :=
  let all := fix all (cs : list node) : Forall P cs :=
    match cs with
    | [] => @List.Forall_nil _ P
    | c :: cs' => @List.Forall_cons _ P c cs' (node_ind c) (all cs')
    end in
  match n with
  | Document cs => P_document cs (all cs)
  | Element t a cs => P_element t a cs (all cs)
  | CharacterData k d => P_data k d
  | DocumentType name => P_doctype name
  end.
End NodeInduction.

(** * Loops *)

Lemma bind_unfold {A B} (f : A → result B) (m : result A) :
  m ≫= f = match m with Ok a => f a | Raise e => Raise e end.
Proof. reflexivity. Qed.

Ltac run :=
  rewrite ?bind_unfold in *; unfold mret, result_ret in *; simpl in *.

Section Loops.
Context {A S : Type}.
Implicit Types (body : A → S → result S) (xs ys : list A) (s : S).

Lemma for_each_cons body x xs s :
  for_each body (x :: xs) s = s' ← body x s; for_each body xs s'.
Proof. reflexivity. Qed.

Lemma for_each_app body xs ys s :
  for_each body (xs ++ ys) s = s' ← for_each body xs s; for_each body ys s'.
Proof.
  revert s. induction xs as [|x xs IH]; intros s; [reflexivity|].
  rewrite <- app_comm_cons, !for_each_cons. run.
  destruct (body x s); [apply IH | reflexivity].
Qed.

Lemma for_each_ext body body' xs s :
  (∀ x s, x ∈ xs → body x s = body' x s) →
  for_each body xs s = for_each body' xs s.
Proof.
  revert s. induction xs as [|x xs IH]; intros s Hext; [reflexivity|].
  rewrite !for_each_cons, Hext by left. run.
  destruct (body' x s); [|reflexivity].
  apply IH. intros; apply Hext. by right.
Qed.

Lemma for_each_filter (P : A → Prop) `{!∀ x, Decision (P x)} body xs s :
  for_each (λ x s, if decide (P x) then body x s else mret s) xs s
  = for_each body (filter P xs) s.
Proof.
  revert s. induction xs as [|x xs IH]; intros s; [reflexivity|].
  rewrite for_each_cons, filter_cons.
  destruct (decide (P x)).
  - rewrite for_each_cons. run. destruct (body x s); [apply IH | reflexivity].
  - run. apply IH.
Qed.

Lemma for_each_raise_inv (Q : exn → Prop) body xs :
  (∀ x s e, x ∈ xs → body x s = Raise e → Q e) →
  ∀ s e, for_each body xs s = Raise e → Q e.
Proof.
  induction xs as [|x xs IH]; intros Hbody s e; [discriminate|].
  rewrite for_each_cons. destruct (body x s) as [s'|e'] eqn:Hx; run.
  - apply IH. intros; eapply Hbody; [by right | eassumption].
  - intros [= <-]. eapply Hbody; [by left | eassumption].
Qed.

(** A loop that returns has run every iteration. *)
Lemma for_each_ok_app body xs ys s s2 :
  for_each body (xs ++ ys) s = Ok s2 ↔
  ∃ s1, for_each body xs s = Ok s1 ∧ for_each body ys s1 = Ok s2.
Proof.
  rewrite for_each_app. destruct (for_each body xs s) as [s1|e]; run.
  - split; [eauto | by intros (? & [= ->] & ?)].
  - split; [discriminate | by intros (? & ? & ?)].
Qed.

End Loops.

Lemma for_each_bind {A B S : Type} (g : A → list B) (body : B → S → result S) xs s :
  for_each (λ x s, for_each body (g x) s) xs s = for_each body (xs ≫= g) s.
Proof.
  revert s. induction xs as [|x xs IH]; intros s; [reflexivity|].
  rewrite for_each_cons, bind_cons, for_each_app. run.
  destruct (for_each body (g x) s); [apply IH | reflexivity].
Qed.

Lemma filter_none {A} (P : A → Prop) `{!∀ x, Decision (P x)} (l : list A) :
  (∀ x, x ∈ l → ¬ P x) → filter P l = [].
Proof.
  induction l as [|x l IH]; intros Hl; [reflexivity|].
  rewrite filter_cons_False by (apply Hl; left).
  apply IH. intros y Hy. apply Hl. by right.
Qed.

(** * The walk visits the descendants in document order *)

Lemma descendants_children n :
  descendants n = c ← childNodes n; c :: descendants c.
Proof.
  destruct n as [cs|t a cs|k d|name]; simpl; try reflexivity;
    induction cs as [|c cs IH]; simpl; try reflexivity;
    rewrite IH; reflexivity.
Qed.

Lemma height_children n :
  height n = S (foldr Nat.max O (height <$> childNodes n)).
Proof. by destruct n. Qed.

Lemma child_height p c : c ∈ childNodes p → (height c < height p)%nat.
Proof.
  rewrite (height_children p). induction (childNodes p) as [|c' cs IH]; intros Hc.
  - by apply elem_of_nil in Hc.
  - rewrite fmap_cons. cbn [foldr].
    apply elem_of_cons in Hc as [->|Hc]; [lia|]. specialize (IH Hc). lia.
Qed.

Section Walk.
Context `{!Runtime}.

Lemma traverse_node_in_S frames n uid_contours :
  traverse_node_in (S frames) n uid_contours
  = for_each (λ child uc, uc' ← visit child uc; traverse_node_in frames child uc')
             (childNodes n) uid_contours.
Proof. reflexivity. Qed.

(** Within the budget the walk visits every descendant, in document
    order. *)
Lemma traverse_node_in_within frames :
  ∀ n, (height n ≤ frames)%nat →
       ∀ uid_contours,
         traverse_node_in frames n uid_contours
         = for_each visit (descendants n) uid_contours.
Proof.
  induction frames as [|frames IH]; intros n Hheight uc.
  - rewrite height_children in Hheight. lia.
  - rewrite traverse_node_in_S, descendants_children.
    assert (Hcs : ∀ c, c ∈ childNodes n → (height c ≤ frames)%nat)
      by (intros c Hc; apply child_height in Hc; lia).
    revert uc. induction (childNodes n) as [|c cs IHcs]; intros uc; [reflexivity|].
    rewrite bind_cons, for_each_cons, <- app_comm_cons, for_each_cons.
    run. destruct (visit c uc) as [uc1|e]; [|reflexivity].
    rewrite for_each_app, IH by (apply Hcs; left). run.
    destruct (for_each visit (descendants c) uc1); [|reflexivity].
    apply IHcs. intros c' Hc'. apply Hcs. by right.
Qed.

(** Beyond the budget the walk does what visiting every descendant does,
    until it runs out of frames. *)
Lemma traverse_node_in_cases frames :
  ∀ n uid_contours,
    traverse_node_in frames n uid_contours
    = for_each visit (descendants n) uid_contours ∨
    traverse_node_in frames n uid_contours = Raise RecursionError.
Proof.
  induction frames as [|frames IH]; intros n uc; [by right|].
  rewrite traverse_node_in_S, descendants_children.
  revert uc. induction (childNodes n) as [|c cs IHcs]; intros uc; [by left|].
  rewrite bind_cons, for_each_cons, <- app_comm_cons, for_each_cons.
  run. destruct (visit c uc) as [uc1|e]; [|by left].
  rewrite for_each_app. destruct (IH c uc1) as [->| ->]; [|by right]. run.
  destruct (for_each visit (descendants c) uc1); [apply IHcs | by left].
Qed.

Lemma visit_region r uid_contours :
  is_ImageStates r →
  visit r uid_contours = for_each store (images r) uid_contours.
Proof.
  intros Hr. unfold visit, images. rewrite decide_True by done.
  rewrite <- for_each_bind. apply for_each_ext. intros child2 uc _.
  unfold image_step.
  rewrite <- (for_each_bind (λ child3, [(key child2, child3)]) store).
  rewrite <- for_each_filter. apply for_each_ext. intros child3 uc' _.
  unfold store_contours, is_Contours.
  destruct (decide (key child3 = "Contours")); [|reflexivity].
  unfold store; simpl. run. by destruct (parse_contours child3).
Qed.

(** Visiting every descendant builds the catalog pair by pair, in the
    order of [occurrences]. *)
Lemma visits_occurrences n uid_contours :
  for_each visit (descendants n) uid_contours
  = for_each store (occurrences n) uid_contours.
Proof.
  unfold occurrences, regions.
  rewrite <- for_each_bind, <- for_each_filter.
  apply for_each_ext. intros r uc _.
  destruct (decide (is_ImageStates r)) as [Hr|Hr].
  - by apply visit_region.
  - unfold visit. by rewrite decide_False.
Qed.

Lemma traverse_node_within n uid_contours :
  (height n ≤ recursion_budget)%nat →
  traverse_node n uid_contours = for_each store (occurrences n) uid_contours.
Proof.
  intros Hheight. unfold traverse_node.
  by rewrite traverse_node_in_within, visits_occurrences.
Qed.

Lemma traverse_node_cases n uid_contours :
  traverse_node n uid_contours = for_each store (occurrences n) uid_contours ∨
  traverse_node n uid_contours = Raise RecursionError.
Proof.
  unfold traverse_node. rewrite <- visits_occurrences.
  apply traverse_node_in_cases.
Qed.

(** A walk that returns has built the catalog pair by pair. *)
Lemma traverse_node_occurrences n uid_contours uid_contours' :
  traverse_node n uid_contours = Ok uid_contours' →
  for_each store (occurrences n) uid_contours = Ok uid_contours'.
Proof. destruct (traverse_node_cases n uid_contours) as [->| ->]; done. Qed.

End Walk.

(** * Document order *)

Lemma node_children_ind (P : node → Prop) :
  (∀ n, (∀ c, c ∈ childNodes n → P c) → P n) → ∀ n, P n.
Proof.
  intros Hstep. induction n as [cs IH|t a cs IH|k d|name] using node_ind;
    apply Hstep; simpl; intros c Hc;
    try (by apply elem_of_nil in Hc);
    by apply (proj1 (Forall_forall _ _) IH).
Qed.

Section Binds.
Context {A B : Type}.
Implicit Types (f g : A → list B) (l : list A).

Lemma bind_ext_in f g l : (∀ x, x ∈ l → f x = g x) → l ≫= f = l ≫= g.
Proof.
  induction l as [|x l IH]; intros Hfg; [reflexivity|].
  rewrite !bind_cons, Hfg by left. f_equal. apply IH. intros; apply Hfg. by right.
Qed.

Lemma bind_nothing f l : (∀ x, x ∈ l → f x = []) → l ≫= f = [].
Proof.
  induction l as [|x l IH]; intros Hf; [reflexivity|].
  rewrite bind_cons, Hf by left. apply IH. intros; apply Hf. by right.
Qed.

Lemma bind_filter (P : A → Prop) `{!∀ x, Decision (P x)} f l :
  (l ≫= λ x, if decide (P x) then f x else []) = filter P l ≫= f.
Proof.
  induction l as [|x l IH]; [reflexivity|].
  rewrite bind_cons, filter_cons, IH. by destruct (decide (P x)).
Qed.

End Binds.

Lemma child_descendant p c : c ∈ childNodes p → c ∈ descendants p.
Proof.
  intros Hc. rewrite descendants_children. apply list_elem_of_bind.
  exists c. split; [left | done].
Qed.

Lemma descendant_below_child p c d :
  c ∈ childNodes p → d ∈ descendants c → d ∈ descendants p.
Proof.
  intros Hc Hd. rewrite descendants_children. apply list_elem_of_bind.
  exists c. split; [by right | done].
Qed.

Lemma regions_below_child p c region :
  c ∈ childNodes p → region ∈ regions c → region ∈ regions p.
Proof.
  unfold regions. rewrite !list_elem_of_filter. intros Hc [Hr Hd].
  split; [done | by eapply descendant_below_child].
Qed.

Lemma occurrences_children p :
  occurrences p
  = c ← childNodes p;
    (if decide (is_ImageStates c) then images c else []) ++ occurrences c.
Proof.
  unfold occurrences, regions. rewrite descendants_children.
  induction (childNodes p) as [|c cs IH]; [reflexivity|].
  rewrite !bind_cons, filter_app, bind_app, IH, filter_cons.
  destruct (decide (is_ImageStates c)); [by rewrite bind_cons|reflexivity].
Qed.

Lemma pairs_children gp p :
  relatives gp p ≫= contours_of
  = c ← childNodes p; contours_of (gp, p, c) ++ (relatives p c ≫= contours_of).
Proof.
  transitivity ((c ← childNodes p; (gp, p, c) :: relatives p c) ≫= contours_of).
  - f_equal. destruct p as [cs|t a cs|k d|name]; simpl; try reflexivity;
      induction cs as [|c cs IH]; simpl; try reflexivity; by rewrite IH.
  - induction (childNodes p) as [|c cs IH]; [reflexivity|].
    by rewrite !bind_cons, bind_app, bind_cons, IH.
Qed.

Lemma contours_of_outside gp p c : ¬ is_ImageStates gp → contours_of (gp, p, c) = [].
Proof. intros Hgp. unfold contours_of. rewrite decide_False; [done | tauto]. Qed.

(** Below a tree without regions there is nothing to read. *)
Lemma pairs_without_region p :
  ∀ gp, ¬ is_ImageStates gp → ¬ is_ImageStates p →
        (∀ d, d ∈ descendants p → ¬ is_ImageStates d) →
        relatives gp p ≫= contours_of = [].
Proof.
  induction p as [p IH] using node_children_ind. intros gp Hgp Hp Hbelow.
  rewrite pairs_children. apply bind_nothing. intros c Hc.
  rewrite contours_of_outside by done. simpl.
  apply IH; [done | done | by apply Hbelow, child_descendant |].
  intros d Hd. by eapply Hbelow, descendant_below_child.
Qed.

(** A region with no region inside is read image by image. *)
Lemma pairs_of_region region gp :
  ¬ is_ImageStates gp → is_ImageStates region →
  (∀ d, d ∈ descendants region → ¬ is_ImageStates d) →
  relatives gp region ≫= contours_of = images region.
Proof.
  intros Hgp Hregion Hbelow. rewrite pairs_children. unfold images, keep_element_nodes.
  rewrite <- bind_filter. apply bind_ext_in. intros image Himage.
  rewrite contours_of_outside by done. simpl.
  assert (Hquiet : ¬ is_ImageStates image) by by apply Hbelow, child_descendant.
  rewrite pairs_children.
  destruct (decide (nodeType image = ELEMENT_NODE)) as [Hel|Hel].
  - rewrite <- !bind_filter. apply bind_ext_in. intros c Hc.
    rewrite pairs_without_region; [|done| |].
    + unfold contours_of. rewrite app_nil_r.
      destruct (decide (nodeType c = ELEMENT_NODE)) as [Hc'|Hc'];
        [destruct (decide (is_Contours c)) as [Hc''|Hc'']|];
        [by rewrite decide_True | by rewrite decide_False by tauto ..].
    + eapply Hbelow, descendant_below_child; [done|]. by apply child_descendant.
    + intros d Hd. eapply Hbelow, descendant_below_child; [done|].
      by eapply descendant_below_child.
  - apply bind_nothing. intros c Hc.
    rewrite pairs_without_region; [|done| |].
    + unfold contours_of. by rewrite decide_False by tauto.
    + eapply Hbelow, descendant_below_child; [done|]. by apply child_descendant.
    + intros d Hd. eapply Hbelow, descendant_below_child; [done|].
      by eapply descendant_below_child.
Qed.

Lemma pairs_occurrences p :
  ∀ gp, ¬ is_ImageStates gp → ¬ is_ImageStates p → unnested p →
        relatives gp p ≫= contours_of = occurrences p.
Proof.
  induction p as [p IH] using node_children_ind. intros gp Hgp Hp Hun.
  rewrite pairs_children, occurrences_children. apply bind_ext_in. intros c Hc.
  rewrite contours_of_outside by done. simpl.
  destruct (decide (is_ImageStates c)) as [Hregion|Hquiet].
  - assert (Hbelow : ∀ d, d ∈ descendants c → ¬ is_ImageStates d).
    { intros d Hd. apply (Hun c d); [|done].
      apply list_elem_of_filter. split; [done | by apply child_descendant]. }
    rewrite pairs_of_region by done.
    unfold occurrences, regions. by rewrite filter_none, app_nil_r.
  - apply IH; [done | done | done |].
    intros region d Hregion. apply Hun. by eapply regions_below_child.
Qed.

(** When no region lies inside another, the program meets the pairs in
    document order. *)
Lemma occurrences_document_order doc :
  ¬ is_ImageStates doc → unnested doc → occurrences doc = document_order doc.
Proof.
  intros Hdoc Hun. symmetry. apply pairs_occurrences; [|done|done].
  by intros [? _].
Qed.

(** * Documents without "ImageStates" *)

Section NoRegion.
Context `{!Runtime}.

(** C7, as the program has it: when the tree nests no deeper than the
    interpreter's recursion limit allows and no element below the document
    has the key "ImageStates", the traversal returns without an exception
    and leaves the catalog as it was: from the empty catalog it returns
    the empty catalog, and [parse_file] writes exactly that when the
    output file can be opened and written. *)
Theorem traverse_node_no_ImageStates (doc : node) :
  (height doc ≤ recursion_budget)%nat →
  (∀ d, d ∈ descendants doc → nodeType d = ELEMENT_NODE → key d ≠ "ImageStates") →
  traverse_node doc ∅ = Ok ∅ ∧
  (∀ uid_contours, traverse_node doc uid_contours = Ok uid_contours) ∧
  (∀ xml_name coord_file fs,
     minidom_parse xml_name = Ok doc →
     open_wb coord_file = Ok () → pickle_dump coord_file ∅ = Ok () →
     parse_file xml_name coord_file fs = (Ok (), <[coord_file := ∅]> fs)).
Proof.
  intros Hheight Hno.
  assert (Hall : ∀ uc, traverse_node doc uc = Ok uc).
  { intros uc. rewrite traverse_node_within by done. unfold occurrences, regions.
    rewrite filter_none; [reflexivity|].
    intros d Hd [Hel Hkey]. by apply (Hno d). }
  split; [apply Hall|]. split; [apply Hall|].
  intros xml_name coord_file fs Hdom Hopen Hdump. unfold parse_file.
  rewrite Hdom. run. by rewrite Hall, Hopen, Hdump.
Qed.

End NoRegion.

(** * Collecting in order *)

Section Collect.
Context {A B : Type} (f : A → result B).

Lemma mapM_app xs ys :
  mapM f (xs ++ ys) = a ← mapM f xs; b ← mapM f ys; mret (a ++ b).
Proof.
  induction xs as [|x xs IH]; simpl.
  - run. by destruct (mapM f ys).
  - rewrite IH. run. destruct (f x); [|reflexivity].
    destruct (mapM f xs); [|reflexivity]. by destruct (mapM f ys).
Qed.

Lemma mapM_ok xs ys :
  mapM f xs = Ok ys ↔ Forall2 (λ x y, f x = Ok y) xs ys.
Proof.
  revert ys. induction xs as [|x xs IH]; intros ys; simpl.
  - split; [intros [= <-]; constructor | by inversion 1].
  - run. split.
    + destruct (f x) as [y|] eqn:Hx; [|discriminate].
      destruct (mapM f xs) as [ys'|] eqn:Hxs; [|discriminate].
      intros [= <-]. constructor; [done | by apply IH].
    + inversion 1 as [|? y ? ys' Hx Hxs]; subst. rewrite Hx.
      apply IH in Hxs. by rewrite Hxs.
Qed.

Lemma mapM_raise_inv (Q : exn → Prop) xs e :
  (∀ x e, x ∈ xs → f x = Raise e → Q e) → mapM f xs = Raise e → Q e.
Proof.
  induction xs as [|x xs IH]; intros Hf; [discriminate|]. simpl.
  destruct (f x) eqn:Hx; run.
  - destruct (mapM f xs); run; [discriminate|].
    intros [= <-]. apply IH; [|reflexivity]. intros; eapply Hf; [by right | done].
  - intros [= <-]. eapply Hf; [by left | done].
Qed.

(** The loop that appends [f x] to a list collects [mapM f]. *)
Lemma for_each_append xs acc :
  for_each (λ x acc, y ← f x; mret (acc ++ [y])) xs acc
  = ys ← mapM f xs; mret (acc ++ ys).
Proof.
  revert acc. induction xs as [|x xs IH]; intros acc.
  - run. by rewrite app_nil_r.
  - rewrite for_each_cons. simpl. run. destruct (f x) as [y|]; [|reflexivity].
    rewrite IH. run. destruct (mapM f xs); [|reflexivity].
    by rewrite <- app_assoc.
Qed.

End Collect.

(** * Filling a dictionary *)

Section Fill.
Context {A V : Type} (name : A → string) (value : A → result V) (keep : V → bool).
Implicit Types (xs : list A) (m : gmap string V).

Local Abbreviation step := (fill name value keep).

Lemma fill_cons x xs m :
  for_each step (x :: xs) m
  = v ← value x; for_each step xs (if keep v then <[name x := v]> m else m).
Proof. rewrite for_each_cons. unfold fill. run. by destruct (value x). Qed.

(** The loop returns exactly when every value can be computed. *)
Lemma fill_returns xs m :
  (∃ m', for_each step xs m = Ok m') ↔ ∀ x, x ∈ xs → ∃ v, value x = Ok v.
Proof.
  revert m. induction xs as [|x xs IH]; intros m.
  - split; [intros _ x Hx; by apply elem_of_nil in Hx | eauto].
  - rewrite fill_cons. run. split.
    + destruct (value x) as [v|] eqn:Hv; [|by intros [? ?]].
      intros [m' Hm'] y Hy.
      apply elem_of_cons in Hy as [->|Hy]; [eauto|].
      eapply IH; eauto.
    + intros Hall. destruct (Hall x) as [v ->]; [by left|].
      apply IH. intros y Hy. apply Hall. by right.
Qed.

(** A name is left alone by iterations that store nothing under it. *)
Lemma fill_untouched xs m m' k :
  for_each step xs m = Ok m' →
  (∀ x v, x ∈ xs → name x = k → value x = Ok v → keep v = false) →
  m' !! k = m !! k.
Proof.
  revert m. induction xs as [|x xs IH]; intros m; [by intros [= ->]|].
  rewrite fill_cons. run.
  destruct (value x) as [v|] eqn:Hv; [|discriminate].
  intros Hm' Hk. rewrite (IH _ Hm') by (intros; eapply Hk; eauto; by right).
  destruct (keep v) eqn:Hkeep; [|reflexivity].
  apply lookup_insert_ne. intros Hname.
  specialize (Hk x v (list_elem_of_here _ _) Hname Hv). congruence.
Qed.

(** The last iteration that stores under a name decides its value. *)
Lemma fill_last pre x post m m' v :
  for_each step (pre ++ x :: post) m = Ok m' →
  value x = Ok v → keep v = true →
  (∀ y w, y ∈ post → name y = name x → value y = Ok w → keep w = false) →
  m' !! name x = Some v.
Proof.
  intros Hm' Hv Hkeep Hpost.
  apply for_each_ok_app in Hm' as (m1 & _ & Hm').
  rewrite fill_cons, Hv in Hm'. run. rewrite Hkeep in Hm'.
  rewrite (fill_untouched _ _ _ _ Hm' Hpost). apply lookup_insert_eq.
Qed.

(** A stored name stays in the dictionary. *)
Lemma fill_grows xs m m' k :
  for_each step xs m = Ok m' → is_Some (m !! k) → is_Some (m' !! k).
Proof.
  revert m. induction xs as [|x xs IH]; intros m; [by intros [= ->]|].
  rewrite fill_cons. run.
  destruct (value x) as [v|]; [|discriminate].
  intros Hm' Hk. apply (IH _ Hm').
  destruct (keep v); [|done].
  rewrite lookup_insert. case_decide; [eauto | done].
Qed.

Lemma fill_stored xs m m' x v :
  for_each step xs m = Ok m' → x ∈ xs → value x = Ok v → keep v = true →
  is_Some (m' !! name x).
Proof.
  intros Hm' Hx Hv Hkeep.
  apply list_elem_of_split in Hx as (pre & post & ->).
  apply for_each_ok_app in Hm' as (m1 & _ & Hm').
  rewrite fill_cons, Hv in Hm'. run. rewrite Hkeep in Hm'.
  apply (fill_grows _ _ _ _ Hm'). rewrite lookup_insert_eq. eauto.
Qed.

End Fill.

(** * One contour *)

Section Contour.
Context `{!Runtime}.
Implicit Types (child : node) (st : list point * Z).

Lemma scan_child_points (child2 : node) st :
  is_Points child2 →
  scan_child child2 st
  = raw ← mapM parse_point (keep_element_nodes (childNodes child2));
    mret (st.1 ++ raw, st.2).
Proof.
  intros HP. unfold scan_child.
  rewrite (decide_True (P := key child2 = "Points")) by exact HP.
  rewrite (decide_False (P := key child2 = "SubpixelResolution"))
    by (rewrite HP; discriminate).
  rewrite for_each_append. run.
  by destruct (mapM parse_point (keep_element_nodes (childNodes child2))).
Qed.

Lemma scan_child_resolution (child2 : node) st :
  is_SubpixelResolution child2 →
  scan_child child2 st = sub ← resolution child2; mret (st.1, sub).
Proof.
  intros HS. unfold scan_child, resolution.
  rewrite (decide_False (P := key child2 = "Points")) by (rewrite HS; discriminate).
  rewrite (decide_True (P := key child2 = "SubpixelResolution")) by exact HS.
  reflexivity.
Qed.

Lemma scan_child_other (child2 : node) st :
  ¬ is_Points child2 → ¬ is_SubpixelResolution child2 →
  scan_child child2 st = Ok st.
Proof.
  intros HP HS. unfold scan_child.
  rewrite (decide_False (P := key child2 = "Points")) by exact HP.
  rewrite (decide_False (P := key child2 = "SubpixelResolution")) by exact HS.
  by destruct st.
Qed.

Lemma scale_from_cons sub r rs :
  scale_from sub (r :: rs) = sub' ← resolution r; scale_from sub' rs.
Proof. reflexivity. Qed.

(** The scan returns exactly when every point record and every
    "SubpixelResolution" child can be read; it then holds the points in
    the order of the records and the scale factor left by the children. *)
Lemma scan_ok (xs : list node) st st' :
  for_each scan_child xs st = Ok st' ↔
  ∃ raw,
    mapM parse_point
      (child2 ← filter is_Points xs; keep_element_nodes (childNodes child2)) = Ok raw ∧
    st'.1 = st.1 ++ raw ∧
    scale_from st.2 (filter is_SubpixelResolution xs) = Ok st'.2.
Proof.
  revert st. induction xs as [|x xs IH]; intros [pts sub]; destruct st' as [pts' sub'].
  - simpl. split.
    + intros [= <- <-]. exists []. by rewrite app_nil_r.
    + intros (raw & [= <-] & -> & [= <-]). by rewrite app_nil_r.
  - rewrite for_each_cons, !filter_cons.
    destruct (decide (is_Points x)) as [HP|HP].
    + rewrite (decide_False (P := is_SubpixelResolution x))
        by (unfold is_SubpixelResolution; rewrite HP; discriminate).
      rewrite scan_child_points, bind_cons, mapM_app by done. run.
      destruct (mapM parse_point (keep_element_nodes (childNodes x))) as [raw1|e];
        [|split; [discriminate | by intros (? & ? & _)]].
      rewrite IH. simpl. split.
      * intros (raw & -> & -> & Hs). exists (raw1 ++ raw).
        by rewrite app_assoc.
      * intros (raw & Hraw & -> & Hs).
        destruct (mapM parse_point _) as [raw2|]; [|discriminate].
        injection Hraw as <-. exists raw2. by rewrite app_assoc.
    + destruct (decide (is_SubpixelResolution x)) as [HS|HS].
      * rewrite scan_child_resolution, scale_from_cons by done. run.
        destruct (resolution x) as [sub1|e];
          [|split; [discriminate | by intros (? & _ & _ & ?)]].
        apply IH.
      * rewrite scan_child_other by done. run. apply IH.
Qed.

(** The points of a contour: the point records read in order, each
    coordinate divided by the scale factor the scan ends with. *)
Lemma contour_points_ok child pts :
  contour_points child = Ok pts ↔
  ∃ raw s sf,
    mapM parse_point (records child) = Ok raw ∧
    scale_from 1 (resolutions child) = Ok s ∧
    float_of_int s = Ok sf ∧
    pts = divide_point sf <$> raw.
Proof.
  unfold contour_points, np_true_divide, records, resolutions. run.
  destruct (for_each scan_child _ _) as [[raw s]|e] eqn:Hscan; simpl.
  - apply scan_ok in Hscan as (raw' & Hraw & Hpts & Hs). simpl in *. subst raw.
    rewrite Hraw, Hs. destruct (float_of_int s) as [sf|e] eqn:Hsf; run.
    + split; [intros [= <-]; eauto 10|].
      intros (? & ? & ? & [= <-] & [= <-] & Hsf' & ->). congruence.
    + split; [discriminate|].
      intros (? & ? & ? & _ & [= <-] & Hsf' & _). congruence.
  - split; [discriminate|]. intros (raw & s & sf & Hraw & Hs & _).
    assert (for_each scan_child (keep_element_nodes (childNodes child)) ([], 1)
            = Ok (raw, s)) as Hok by (apply scan_ok; eauto).
    congruence.
Qed.

(** Each "SubpixelResolution" child overwrites the stored factor: after
    the last one the factor is the integer read from it. *)
Lemma scale_from_last sub rs r s :
  scale_from sub (rs ++ [r]) = Ok s ↔
  (∀ r', r' ∈ rs → ∃ z, resolution r' = Ok z) ∧ resolution r = Ok s.
Proof.
  unfold scale_from. rewrite for_each_ok_app. simpl. run. split.
  - intros (s1 & Hrs & Hr). split.
    + intros r' Hr'. apply list_elem_of_split in Hr' as (pre & post & ->).
      apply for_each_ok_app in Hrs as (s0 & _ & Hrs). simpl in Hrs. run.
      destruct (resolution r'); [eauto | discriminate].
    + by destruct (resolution r).
  - intros [Hrs ->].
    assert (∃ s1, for_each (λ child2 _, resolution child2) rs sub = Ok s1) as [s1 Hs1].
    { clear -Hrs. revert sub. induction rs as [|r0 rs IH]; intros sub; [by eexists|].
      simpl. destruct (Hrs r0) as [z ->]; [by left|]. run.
      apply IH. intros; apply Hrs. by right. }
    eauto.
Qed.

Lemma parse_point_malformed rec :
  malformed_record rec → ∃ e, parse_point rec = Raise e.
Proof.
  assert (Hc : ∀ tag, lacks_coordinate rec tag → ∃ e, coordinate rec tag = Raise e).
  { intros tag. unfold lacks_coordinate, coordinate.
    destruct (getElementsByTagName rec tag) as [|e es]; simpl; [eauto|].
    intros ->. run. eauto. }
  unfold parse_point. intros [Hx|Hy].
  - destruct (Hc _ Hx) as [e ->]. run. eauto.
  - destruct (Hc _ Hy) as [e ->]. destruct (coordinate rec "Point:x"); run; eauto.
Qed.

End Contour.

(** * The contours of an image and the catalog, as filled dictionaries *)

Section Dictionaries.
Context `{!Runtime}.

Lemma parse_contours_fill n :
  parse_contours n
  = for_each (fill key contour_points (λ _, true))
             (keep_element_nodes (childNodes n)) ∅.
Proof. reflexivity. Qed.

Lemma stores_fill (os : list (string * node)) uid_contours :
  for_each store os uid_contours
  = for_each (fill fst (λ o, parse_contours o.2) (λ cs, bool_decide (size cs ≠ 0%nat)))
             os uid_contours.
Proof.
  apply for_each_ext. intros o uc _.
  unfold store, fill. destruct (parse_contours o.2) as [cs|e]; [|reflexivity].
  simpl. case_decide; case_bool_decide; done.
Qed.

(** A traversal that returns has filled the catalog pair by pair. *)
Lemma traverse_node_fill n uid_contours uid_contours' :
  traverse_node n uid_contours = Ok uid_contours' →
  for_each (fill fst (λ o, parse_contours o.2) (λ cs, bool_decide (size cs ≠ 0%nat)))
           (occurrences n) uid_contours = Ok uid_contours'.
Proof. rewrite <- stores_fill. apply traverse_node_occurrences. Qed.

Lemma traverse_node_within_fill n uid_contours :
  (height n ≤ recursion_budget)%nat →
  traverse_node n uid_contours
  = for_each (fill fst (λ o, parse_contours o.2) (λ cs, bool_decide (size cs ≠ 0%nat)))
             (occurrences n) uid_contours.
Proof. intros Hheight. by rewrite traverse_node_within, stores_fill. Qed.

(** [parse_contours] returns exactly when every contour can be read. *)
Lemma parse_contours_returns n :
  (∃ cs, parse_contours n = Ok cs) ↔
  ∀ child, child ∈ keep_element_nodes (childNodes n) →
           ∃ pts, contour_points child = Ok pts.
Proof. rewrite parse_contours_fill. apply fill_returns. Qed.

(** A "Contours" node with a contour in it yields a dict that is not
    empty, and conversely. *)
Lemma parse_contours_size n cs :
  parse_contours n = Ok cs →
  size cs = 0%nat ↔ keep_element_nodes (childNodes n) = [].
Proof.
  rewrite parse_contours_fill. intros Hcs. split.
  - intros Hsize. apply map_size_empty_iff in Hsize. subst cs.
    destruct (keep_element_nodes (childNodes n)) as [|c l] eqn:Hl; [done|].
    assert (c ∈ c :: l) as Hc by left.
    destruct (proj1 (fill_returns key contour_points (λ _, true) (c :: l) ∅)
                (ex_intro _ _ Hcs) c Hc) as [pts Hpts].
    destruct (fill_stored _ _ _ _ _ _ c pts Hcs Hc Hpts eq_refl) as [? Hk].
    by rewrite lookup_empty in Hk.
  - intros Hnil. rewrite Hnil in Hcs. injection Hcs as <-. apply map_size_empty.
Qed.

(** Where the pairs of [occurrences] are in the tree. *)
Lemma elem_of_occurrences doc uid contours_node :
  (uid, contours_node) ∈ occurrences doc ↔
  ∃ region image,
    region ∈ descendants doc ∧ is_ImageStates region ∧
    image ∈ keep_element_nodes (childNodes region) ∧
    uid = key image ∧
    contours_node ∈ keep_element_nodes (childNodes image) ∧
    key contours_node = "Contours".
Proof.
  unfold occurrences, regions, images. rewrite list_elem_of_bind. split.
  - intros (r & Hin & Hr). apply list_elem_of_filter in Hr as [Hr Hd].
    apply list_elem_of_bind in Hin as (image & Hin & Himage).
    apply list_elem_of_bind in Hin as (c & Hin & Hc).
    apply list_elem_of_singleton in Hin as [= -> ->].
    apply list_elem_of_filter in Hc as [Hc Hc'].
    exists r, image. done.
  - intros (r & image & Hd & Hr & Himage & -> & Hc & Hkey).
    exists r. split; [|by apply list_elem_of_filter].
    apply list_elem_of_bind. exists image. split; [|done].
    apply list_elem_of_bind. exists contours_node.
    split; [by apply list_elem_of_singleton | by apply list_elem_of_filter].
Qed.

End Dictionaries.

(** * What the program can raise *)

Section Raises.
Context `{!Runtime}.

Ltac raised := intros [= <-]; reflexivity.

Lemma coordinate_raises rec tag e :
  coordinate rec tag = Raise e → MalformedRecord e = true.
Proof.
  unfold coordinate, item0, firstChild_data, data.
  destruct (getElementsByTagName rec tag) as [|el ?]; run; [raised|].
  destruct (firstChild el) as [[]|]; run; try raised.
  destruct (py_float text); run; [discriminate | raised].
Qed.

Lemma parse_point_raises rec e :
  parse_point rec = Raise e → MalformedRecord e = true.
Proof.
  unfold parse_point.
  destruct (coordinate rec "Point:x") eqn:Hx; run; [|intros [= <-]; eauto using coordinate_raises].
  destruct (coordinate rec "Point:y") eqn:Hy; run; [discriminate|].
  intros [= <-]; eauto using coordinate_raises.
Qed.

Lemma resolution_raises r e :
  resolution r = Raise e → MalformedRecord e = true.
Proof.
  unfold resolution, firstChild_data, data.
  destruct (firstChild r) as [[]|]; run; try raised.
  destruct (py_int text); run; [discriminate | raised].
Qed.

Lemma scan_child_raises child2 st e :
  scan_child child2 st = Raise e → MalformedRecord e = true.
Proof.
  destruct (decide (is_Points child2)) as [HP|HP].
  - rewrite scan_child_points by done.
    destruct (mapM parse_point _) eqn:Hraw; run; [discriminate|].
    intros [= <-]. revert Hraw.
    apply (mapM_raise_inv _ (λ e, MalformedRecord e = true)).
    intros; eauto using parse_point_raises.
  - destruct (decide (is_SubpixelResolution child2)) as [HS|HS].
    + rewrite scan_child_resolution by done.
      destruct (resolution child2) eqn:Hr; run; [discriminate|].
      intros [= <-]; eauto using resolution_raises.
    + by rewrite scan_child_other.
Qed.

Lemma contour_points_raises child e :
  contour_points child = Raise e → MalformedRecord e = true.
Proof.
  unfold contour_points, np_true_divide, float_of_int.
  destruct (for_each scan_child _ _) as [st|e'] eqn:Hscan; run.
  - destruct (binary_normalize _ _ _ _ _); run; try discriminate. raised.
  - intros [= <-]. revert Hscan.
    apply (for_each_raise_inv (λ e, MalformedRecord e = true)).
    intros; eauto using scan_child_raises.
Qed.

Lemma parse_contours_raises n e :
  parse_contours n = Raise e → MalformedRecord e = true.
Proof.
  unfold parse_contours.
  apply (for_each_raise_inv (λ e, MalformedRecord e = true)). intros child m e' _.
  unfold parse_contour. destruct (contour_points child) eqn:Hc; run; [discriminate|].
  intros [= <-]; eauto using contour_points_raises.
Qed.

Lemma stores_raise (os : list (string * node)) uid_contours e :
  for_each store os uid_contours = Raise e → MalformedRecord e = true.
Proof.
  apply (for_each_raise_inv (λ e, MalformedRecord e = true)). intros o uc e' _.
  unfold store. destruct (parse_contours o.2) eqn:Hc; run; [discriminate|].
  intros [= <-]; eauto using parse_contours_raises.
Qed.

(** The traversal raises nothing but the MalformedRecord class and
    [RecursionError], and the latter only beyond its budget. *)
Lemma traverse_node_raises n uid_contours e :
  traverse_node n uid_contours = Raise e →
  (MalformedRecord e = true ∨ e = RecursionError) ∧
  ((height n ≤ recursion_budget)%nat → MalformedRecord e = true).
Proof.
  intros Hraise. split.
  - destruct (traverse_node_cases n uid_contours) as [Hsame|Hdeep].
    + left. rewrite Hsame in Hraise. by eapply stores_raise.
    + right. congruence.
  - intros Hheight. rewrite traverse_node_within in Hraise by done.
    by eapply stores_raise.
Qed.

End Raises.

(** * The contour extractor *)

Section Extractor.
Context `{!Runtime}.

Lemma float_of_int_1 : float_of_int 1 = Ok 1%float.
Proof. reflexivity. Qed.

Lemma float_of_int_2 : float_of_int 2 = Ok 2%float.
Proof. reflexivity. Qed.

Lemma scale_from_last_Some sub rs r s :
  scale_from sub rs = Ok s → last rs = Some r → resolution r = Ok s.
Proof.
  intros Hs Hlast. apply last_Some in Hlast as [rs' ->].
  by apply scale_from_last in Hs as [_ ?].
Qed.

(** C3: the points of a contour are the raw (x, y) pairs, each coordinate
    divided in binary64 by the scale factor; the factor is the integer
    read from the "SubpixelResolution" child when there is one and 1
    otherwise.  Raw points (10, 20), (30, 40) at resolution 2 give
    (5, 10), (15, 20); the raw point (7, 9) without a resolution gives
    (7, 9), and at resolution 2 it gives (3.5, 4.5), not (3, 4). *)
Theorem contour_points_scaled (child : node) (raw : list point) (s : Z) (sf : float) :
  mapM parse_point (records child) = Ok raw →
  scale_from 1 (resolutions child) = Ok s →
  float_of_int s = Ok sf →
  contour_points child = Ok (divide_point sf <$> raw) ∧
  (resolutions child = [] → s = 1 ∧ sf = 1%float) ∧
  (∀ r, last (resolutions child) = Some r → resolution r = Ok s) ∧
  (raw = [(10, 20); (30, 40)]%float → s = 2 →
   contour_points child = Ok [(5, 10); (15, 20)]%float) ∧
  (raw = [(7, 9)]%float → resolutions child = [] →
   contour_points child = Ok [(7, 9)]%float) ∧
  (raw = [(7, 9)]%float → s = 2 →
   contour_points child = Ok [(3.5, 4.5)]%float).
Proof.
  intros Hraw Hs Hsf.
  assert (Hpts : contour_points child = Ok (divide_point sf <$> raw))
    by (apply contour_points_ok; eauto 10).
  assert (Hone : resolutions child = [] → s = 1 ∧ sf = 1%float).
  { intros Hnil. rewrite Hnil in Hs. injection Hs as <-.
    rewrite float_of_int_1 in Hsf. by injection Hsf as <-. }
  repeat split; try done; try (by apply Hone).
  - intros r. by apply (scale_from_last_Some 1).
  - intros -> ->. rewrite float_of_int_2 in Hsf. injection Hsf as <-.
    rewrite Hpts. reflexivity.
  - intros -> Hnil. destruct (Hone Hnil) as [_ ->]. rewrite Hpts. reflexivity.
  - intros -> ->. rewrite float_of_int_2 in Hsf. injection Hsf as <-.
    rewrite Hpts. reflexivity.
Qed.

(** C6: the points of a contour come in the order of its point records,
    the element children of its "Points" nodes as the tree lists them:
    point [i] is record [i], scaled.  There is such a contour exactly when
    the records and the resolution can be read. *)
Theorem contour_points_in_document_order (child : node) :
  ((∃ pts, contour_points child = Ok pts) ↔
   ∃ raw s sf, mapM parse_point (records child) = Ok raw ∧
               scale_from 1 (resolutions child) = Ok s ∧
               float_of_int s = Ok sf) ∧
  (∀ pts, contour_points child = Ok pts →
     ∃ sf : float,
       length pts = length (records child) ∧
       ∀ i rec, records child !! i = Some rec →
                ∃ raw_point, parse_point rec = Ok raw_point ∧
                             pts !! i = Some (divide_point sf raw_point)) ∧
  (∀ p, filter is_Points (keep_element_nodes (childNodes child)) = [p] →
        records child = keep_element_nodes (childNodes p) ∧
        sublist (records child) (childNodes p)).
Proof.
  split; [|split].
  - split.
    + intros [pts Hpts]. apply contour_points_ok in Hpts
        as (raw & s & sf & ? & ? & ? & _). eauto 10.
    + intros (raw & s & sf & ? & ? & ?). eexists.
      apply contour_points_ok. eauto 10.
  - intros pts Hpts.
    apply contour_points_ok in Hpts as (raw & s & sf & Hraw & _ & _ & ->).
    apply mapM_ok in Hraw. exists sf. split.
    + rewrite length_fmap. symmetry. by eapply Forall2_length.
    + intros i rec Hrec.
      destruct (Forall2_lookup_l _ _ _ _ _ Hraw Hrec) as (p & Hp & Hparse).
      exists p. split; [done|]. by rewrite list_lookup_fmap, Hp.
  - intros p Hp. unfold records. rewrite Hp. simpl. rewrite app_nil_r.
    split; [reflexivity | apply sublist_filter].
Qed.

(** C10: with several "SubpixelResolution" children the contour is scaled
    by the integer read from the last of them. *)
Theorem last_resolution_scales (child : node) (rs : list node) (r : node)
    (pts : list point) :
  resolutions child = rs ++ [r] →
  contour_points child = Ok pts ↔
  ∃ raw s sf,
    mapM parse_point (records child) = Ok raw ∧
    (∀ r', r' ∈ rs → ∃ z, resolution r' = Ok z) ∧
    resolution r = Ok s ∧
    float_of_int s = Ok sf ∧
    pts = divide_point sf <$> raw.
Proof.
  intros Hrs. rewrite contour_points_ok, Hrs. split.
  - intros (raw & s & sf & Hraw & Hs & Hsf & ->).
    apply scale_from_last in Hs as [Hall Hr]. eauto 10.
  - intros (raw & s & sf & Hraw & Hall & Hr & Hsf & ->).
    exists raw, s, sf. by rewrite scale_from_last.
Qed.

(** C5: when two children of a "Contours" node carry the same name, the
    returned dict maps the name to the points of the one that comes last. *)
Theorem later_contour_wins (n : node) (pre mid post : list node) (c1 c2 : node) :
  keep_element_nodes (childNodes n) = pre ++ c1 :: mid ++ c2 :: post →
  key c1 = key c2 →
  (∀ c, c ∈ post → key c ≠ key c2) →
  (∀ c, c ∈ keep_element_nodes (childNodes n) → ∃ pts, contour_points c = Ok pts) →
  ∃ cs pts2,
    parse_contours n = Ok cs ∧
    contour_points c2 = Ok pts2 ∧
    cs !! key c2 = Some pts2 ∧
    cs !! key c1 = Some pts2.
Proof.
  intros Hcs Hkey Hpost Hall.
  destruct (proj2 (parse_contours_returns n) Hall) as [cs Hparse].
  destruct (Hall c2) as [pts2 Hpts2].
  { rewrite Hcs. apply elem_of_app. right. right. apply elem_of_app. right. left. }
  assert (Hlast : cs !! key c2 = Some pts2).
  { rewrite parse_contours_fill, Hcs in Hparse.
    change (pre ++ c1 :: mid ++ c2 :: post)
      with (pre ++ (c1 :: mid) ++ c2 :: post) in Hparse.
    rewrite app_assoc in Hparse.
    eapply fill_last; [exact Hparse | exact Hpts2 | reflexivity |].
    intros y w Hy Hname. by destruct (Hpost y Hy). }
  exists cs, pts2. by rewrite Hkey.
Qed.

(** C8: a contour without point records is stored all the same, as the
    empty sequence under its name. *)
Theorem pointless_contour_is_stored (n : node) (pre post : list node) (c : node) :
  keep_element_nodes (childNodes n) = pre ++ c :: post →
  records c = [] →
  (∀ c', c' ∈ keep_element_nodes (childNodes n) → ∃ pts, contour_points c' = Ok pts) →
  contour_points c = Ok [] ∧
  (∀ contours, parse_contour c contours = Ok (<[key c := []]> contours)) ∧
  ∃ cs, parse_contours n = Ok cs ∧
        is_Some (cs !! key c) ∧
        ((∀ c', c' ∈ post → key c' ≠ key c) → cs !! key c = Some []).
Proof.
  intros Hcs Hrec Hall.
  assert (Hc : contour_points c = Ok []).
  { destruct (Hall c) as [pts Hpts]; [rewrite Hcs; apply elem_of_app; right; left|].
    rewrite Hpts. apply contour_points_ok in Hpts as (raw & s & sf & Hraw & _ & _ & ->).
    rewrite Hrec in Hraw. by injection Hraw as <-. }
  split; [done|]. split; [intros m; unfold parse_contour; by rewrite Hc|].
  destruct (proj2 (parse_contours_returns n) Hall) as [cs Hparse].
  exists cs. split; [done|].
  rewrite parse_contours_fill, Hcs in Hparse. split.
  - eapply fill_stored; [exact Hparse | | exact Hc | reflexivity].
    apply elem_of_app; right; left.
  - intros Hpost. eapply fill_last; [exact Hparse | exact Hc | reflexivity |].
    intros y w Hy Hname. by destruct (Hpost y Hy).
Qed.

End Extractor.

(** * The tree walker *)

Section Walker.
Context `{!Runtime}.

Lemma has_no_key_key n : has_no_key n → nodeType n = ELEMENT_NODE ∧ key n = "".
Proof.
  destruct n as [|t attrs cs| |]; simpl; try done.
  intros Hnone. unfold key. simpl. by rewrite Hnone.
Qed.

(** C9: an element without a "Hash:key" attribute is neither skipped nor
    an error; its key reads as the empty string.  Such a contour is stored
    under the name [""].  The dict of such an image, when it is not empty,
    is stored under the UID [""]: the store is exactly that insertion, the
    final catalog has the UID [""], and it holds that very dict unless a
    later pair of the UID [""] replaces it. *)
Theorem missing_key_is_the_empty_string :
  (∀ n, has_no_key n → nodeType n = ELEMENT_NODE ∧ key n = "") ∧
  (∀ n c,
     c ∈ keep_element_nodes (childNodes n) → has_no_key c →
     (∀ c', c' ∈ keep_element_nodes (childNodes n) → ∃ pts, contour_points c' = Ok pts) →
     (∀ contours pts, contour_points c = Ok pts →
                      parse_contour c contours = Ok (<["" := pts]> contours)) ∧
     ∃ cs, parse_contours n = Ok cs ∧ is_Some (cs !! "")) ∧
  (∀ doc region image contours_node cs uid_contours uid_contours',
     region ∈ descendants doc → is_ImageStates region →
     image ∈ keep_element_nodes (childNodes region) → has_no_key image →
     contours_node ∈ keep_element_nodes (childNodes image) →
     key contours_node = "Contours" →
     parse_contours contours_node = Ok cs → size cs ≠ 0%nat →
     traverse_node doc uid_contours = Ok uid_contours' →
     is_Some (uid_contours' !! "") ∧
     (∀ catalog_before,
        store_contours (key image) contours_node catalog_before
        = Ok (<["" := cs]> catalog_before)) ∧
     (∀ catalog_before,
        image_step image catalog_before
        = for_each (store_contours "") (keep_element_nodes (childNodes image))
                   catalog_before) ∧
     (∀ pre post,
        occurrences doc = pre ++ ("", contours_node) :: post →
        (∀ contours_node' cs',
           ("", contours_node') ∈ post →
           parse_contours contours_node' = Ok cs' → size cs' = 0%nat) →
        uid_contours' !! "" = Some cs)).
Proof.
  split; [exact has_no_key_key|]. split.
  - intros n c Hc Hkey Hall. apply has_no_key_key in Hkey as [_ Hkey]. split.
    + intros m pts Hpts. unfold parse_contour. by rewrite Hpts, Hkey.
    + destruct (proj2 (parse_contours_returns n) Hall) as [cs Hparse].
      exists cs. split; [done|]. destruct (Hall c Hc) as [pts Hpts].
      rewrite <- Hkey. rewrite parse_contours_fill in Hparse.
      eapply fill_stored; [exact Hparse | exact Hc | exact Hpts | reflexivity].
  - intros doc region image cn cs uc uc' Hregion HIS Himage Hkey Hcn Hcontours
      Hcs Hsize Htraverse.
    apply has_no_key_key in Hkey as [_ Hkey].
    assert (Hocc : ("", cn) ∈ occurrences doc).
    { apply elem_of_occurrences. exists region, image. by rewrite Hkey. }
    apply traverse_node_fill in Htraverse.
    split; [|split; [|split]].
    + apply (fill_stored _ _ _ _ _ _ ("", cn) cs Htraverse Hocc Hcs).
      by apply bool_decide_eq_true.
    + intros before. unfold store_contours.
      rewrite decide_True by done. rewrite Hcs, Hkey. run.
      by rewrite decide_True.
    + intros before. unfold image_step. by rewrite Hkey.
    + intros pre post Hsplit Hpost. rewrite Hsplit in Htraverse.
      apply (fill_last _ _ _ _ ("", cn) _ _ _ cs Htraverse Hcs).
      * by apply bool_decide_eq_true.
      * intros [uid' cn'] cs' Hin [= ->] Hcs'. simpl in *.
        apply bool_decide_eq_false. intros Hne. apply Hne. by eapply Hpost.
Qed.

(** C1, as the program has it: an image UID is absent from the final
    catalog exactly when every "Contours" node read for it yields a dict
    with no contour at all, that is, has no element child; a dict of named
    contours without points is stored. *)
Theorem uid_absent_iff_no_contour (doc : node) (uid : string) (uid_contours : catalog) :
  traverse_node doc ∅ = Ok uid_contours →
  (uid_contours !! uid = None ↔
   ∀ contours_node cs,
     (uid, contours_node) ∈ occurrences doc →
     parse_contours contours_node = Ok cs → cs = ∅) ∧
  (uid_contours !! uid = None ↔
   ∀ contours_node,
     (uid, contours_node) ∈ occurrences doc →
     keep_element_nodes (childNodes contours_node) = []).
Proof.
  intros Htraverse. apply traverse_node_fill in Htraverse.
  assert (Hdict : uid_contours !! uid = None ↔
                  ∀ cn cs, (uid, cn) ∈ occurrences doc →
                           parse_contours cn = Ok cs → cs = ∅).
  { split.
    - intros Hnone cn cs Hocc Hcs.
      apply map_size_empty_iff. destruct (decide (size cs = 0%nat)) as [|Hsize]; [done|].
      destruct (fill_stored _ _ _ _ _ _ (uid, cn) cs Htraverse Hocc Hcs) as [? Hsome];
        [by apply bool_decide_eq_true|].
      simpl in Hsome. congruence.
    - intros Hall. rewrite (fill_untouched _ _ _ _ _ _ uid Htraverse); [done|].
      intros [uid' cn] cs Hocc [= ->] Hcs. simpl in *.
      rewrite (Hall cn cs Hocc Hcs). apply bool_decide_eq_false. intros Hsize.
      by apply Hsize. }
  split; [exact Hdict|]. rewrite Hdict. split.
  - intros Hall cn Hocc.
    destruct (proj1 (fill_returns _ _ _ _ _) (ex_intro _ _ Htraverse) _ Hocc)
      as [cs Hcs]. simpl in Hcs.
    apply (parse_contours_size _ _ Hcs). rewrite (Hall cn cs Hocc Hcs).
    apply map_size_empty.
  - intros Hall cn cs Hocc Hcs. apply map_size_empty_iff.
    apply (parse_contours_size _ _ Hcs). by apply Hall.
Qed.

(** C4, as the program has it: the (image UID, "Contours" node) pairs are
    processed region by region, the regions in document order and the
    images of a region in document order; the last processed pair of a UID
    whose dict is not empty overwrites whatever was stored for the UID
    before and is what the final catalog holds.  When no region lies
    inside another, that is the last such pair in document order. *)
Theorem later_occurrence_wins (doc : node) (pre post : list (string * node))
    (uid : string) (contours_node : node) (cs : gmap string (list point))
    (uid_contours uid_contours' : catalog) :
  parse_contours contours_node = Ok cs →
  size cs ≠ 0%nat →
  (∀ contours_node' cs',
     (uid, contours_node') ∈ post →
     parse_contours contours_node' = Ok cs' → size cs' = 0%nat) →
  traverse_node doc uid_contours = Ok uid_contours' →
  (occurrences doc = pre ++ (uid, contours_node) :: post →
   uid_contours' !! uid = Some cs) ∧
  (¬ is_ImageStates doc → unnested doc →
   document_order doc = pre ++ (uid, contours_node) :: post →
   uid_contours' !! uid = Some cs).
Proof.
  intros Hcs Hsize Hpost Htraverse. apply traverse_node_fill in Htraverse.
  assert (Hlast : occurrences doc = pre ++ (uid, contours_node) :: post →
                  uid_contours' !! uid = Some cs).
  { intros Hocc. rewrite Hocc in Htraverse.
    apply (fill_last _ _ _ _ (uid, contours_node) _ _ _ cs Htraverse Hcs).
    - by apply bool_decide_eq_true.
    - intros [uid' cn'] cs' Hin [= ->] Hcs'. simpl in *.
      apply bool_decide_eq_false. intros Hne. apply Hne. by eapply Hpost. }
  split; [exact Hlast|].
  intros Hdoc Hun Horder. apply Hlast. by rewrite occurrences_document_order.
Qed.

Lemma extracted_record_raises doc rec uid_contours :
  extracted_record doc rec → malformed_record rec →
  ∃ e, traverse_node doc uid_contours = Raise e.
Proof.
  intros (uid & cn & contour & Hocc & Hcontour & Hrec) Hbad.
  destruct (traverse_node doc uid_contours) as [uc'|e] eqn:Htraverse; [|eauto].
  exfalso. apply traverse_node_fill in Htraverse.
  destruct (proj1 (fill_returns _ _ _ _ _) (ex_intro _ _ Htraverse) _ Hocc)
    as [cs Hcs]. simpl in Hcs.
  destruct (proj1 (parse_contours_returns cn) (ex_intro _ _ Hcs) _ Hcontour)
    as [pts Hpts].
  apply contour_points_ok in Hpts as (raw & _ & _ & Hraw & _).
  apply mapM_ok in Hraw.
  apply list_elem_of_lookup in Hrec as [i Hi].
  destruct (Forall2_lookup_l _ _ _ _ _ Hraw Hi) as (p & _ & Hparse).
  destruct (parse_point_malformed rec Hbad) as [e He]. congruence.
Qed.

(** C2, as the program has it: a point record that the traversal reaches
    (under a region, an image, a "Contours" node, a contour and a "Points"
    node) and that lacks a "Point:x" or a "Point:y" descendant, or whose
    first such descendant has no first child or one without character
    data, makes the whole parse fail; nothing is written.  The exception
    is of the MalformedRecord class when the tree nests no deeper than the
    recursion limit allows, and [RecursionError] is the only other one. *)
Theorem malformed_record_aborts (doc rec : node) (xml_name coord_file : string)
    (fs : gmap string catalog) :
  extracted_record doc rec →
  malformed_record rec →
  minidom_parse xml_name = Ok doc →
  ∃ e, traverse_node doc ∅ = Raise e ∧
       parse_file xml_name coord_file fs = (Raise e, fs) ∧
       (MalformedRecord e = true ∨ e = RecursionError) ∧
       ((height doc ≤ recursion_budget)%nat → MalformedRecord e = true).
Proof.
  intros Hrec Hbad Hdom.
  destruct (extracted_record_raises doc rec ∅ Hrec Hbad) as [e He].
  exists e. split; [done|]. split.
  - unfold parse_file. rewrite Hdom. run. by rewrite He.
  - by eapply traverse_node_raises.
Qed.

End Walker.

(** * More on filled dictionaries *)

#[local] Set Warnings "-clear-no-such-hyp".

Section FillMore.
Context {A V : Type} (name : A → string) (value : A → result V) (keep : V → bool).
Implicit Types (xs : list A) (m : gmap string V).

Local Abbreviation step := (fill name value keep).

(** Whatever is in the dictionary at the end was there at the start or
    was stored by an iteration. *)
Lemma fill_origin xs m m' k v :
  for_each step xs m = Ok m' → m' !! k = Some v →
  m !! k = Some v ∨ ∃ x, x ∈ xs ∧ name x = k ∧ value x = Ok v ∧ keep v = true.
Proof.
  revert m. induction xs as [|x xs IH]; intros m; [intros [= ->]; eauto|].
  rewrite fill_cons. destruct (value x) as [w|] eqn:Hw; run; [|discriminate].
  intros Hm' Hk. destruct (IH _ Hm' Hk) as [Hin|(y & Hy & ? & ? & ?)].
  - destruct (keep w) eqn:Hkeep; [|eauto].
    rewrite lookup_insert in Hin. case_decide as Hname; [|eauto].
    injection Hin as <-. right. exists x. split; [by left | done].
  - right. exists y. split; [by right | done].
Qed.

(** Filling a dictionary that lies over another is filling it alone and
    laying the result over the other. *)
Lemma fill_union_over xs m0 m :
  for_each step xs (m0 ∪ m) = fresh ← for_each step xs m0; mret (fresh ∪ m).
Proof.
  revert m0. induction xs as [|x xs IH]; intros m0; [reflexivity|].
  rewrite !fill_cons. destruct (value x) as [v|]; run; [|reflexivity].
  destruct (keep v); [|apply IH]. rewrite insert_union_l. apply IH.
Qed.

(** Filling a dictionary is filling an empty one and merging the result
    over the old entries. *)
Lemma fill_union xs m :
  for_each step xs m = fresh ← for_each step xs ∅; mret (fresh ∪ m).
Proof. rewrite <- fill_union_over. by rewrite (left_id_L ∅ (∪)). Qed.

(** The exception of a loop is that of its first iteration that has one. *)
Lemma fill_raises xs m e :
  for_each step xs m = Raise e ↔
  ∃ pre x post, xs = pre ++ x :: post ∧
                (∀ y, y ∈ pre → ∃ v, value y = Ok v) ∧
                value x = Raise e.
Proof.
  revert m. induction xs as [|x xs IH]; intros m.
  - split; [discriminate|]. intros (pre & y & post & Hnil & _).
    by destruct pre.
  - rewrite fill_cons. destruct (value x) as [v|e'] eqn:Hv; run.
    + rewrite IH. split.
      * intros (pre & y & post & -> & Hpre & Hy). exists (x :: pre), y, post.
        split; [done|]. split; [|done].
        intros z Hz. apply elem_of_cons in Hz as [->|Hz]; eauto.
      * intros (pre & y & post & Hxs & Hpre & Hy). destruct pre as [|x' pre].
        -- injection Hxs as -> ->. congruence.
        -- injection Hxs as -> ->. exists pre, y, post.
           split; [done|]. split; [|done]. intros z Hz. apply Hpre. by right.
    + split.
      * intros [= ->]. exists [], x, xs. split; [done|]. split; [|done].
        intros y Hy. by apply elem_of_nil in Hy.
      * intros (pre & y & post & Hxs & Hpre & Hy). destruct pre as [|x' pre].
        -- injection Hxs as -> ->. congruence.
        -- injection Hxs as -> ->. destruct (Hpre x') as [v Hv']; [by left|].
           congruence.
Qed.

(** With every value kept, the names at the end are those at the start
    and those of the iterations. *)
Lemma fill_dom xs m m' :
  (∀ v, keep v = true) →
  for_each step xs m = Ok m' →
  dom m' = dom m ∪ list_to_set (name <$> xs).
Proof.
  intros Hkeep. revert m. induction xs as [|x xs IH]; intros m.
  - intros [= ->]. simpl. by rewrite (right_id_L ∅ (∪)).
  - rewrite fill_cons. destruct (value x) as [v|]; run; [|discriminate].
    rewrite Hkeep. intros Hm'. rewrite (IH _ Hm'), dom_insert_L.
    set_solver.
Qed.

End FillMore.

Lemma size_list_to_set_le (l : list string) :
  (size (list_to_set l : gset string) ≤ length l)%nat.
Proof.
  induction l as [|x l IH]; [by rewrite list_to_set_nil, size_empty|].
  rewrite list_to_set_cons. simpl.
  rewrite size_union_alt, size_singleton.
  assert (size (list_to_set l ∖ {[x]} : gset string) ≤ size (list_to_set l : gset string))%nat
    by (apply subseteq_size; set_solver).
  lia.
Qed.

(** * Further properties of the program *)

(** [keep_element_nodes] keeps exactly the element nodes, in the order of
    the list; it distributes over concatenation and filtering twice
    changes nothing. *)
Theorem keep_element_nodes_keeps_elements (nodes : list node) :
  (∀ n, n ∈ keep_element_nodes nodes ↔ n ∈ nodes ∧ nodeType n = ELEMENT_NODE) ∧
  sublist (keep_element_nodes nodes) nodes ∧
  keep_element_nodes (keep_element_nodes nodes) = keep_element_nodes nodes ∧
  (∀ more, keep_element_nodes (nodes ++ more)
           = keep_element_nodes nodes ++ keep_element_nodes more).
Proof.
  unfold keep_element_nodes. split; [|split; [|split]].
  - intros n. rewrite list_elem_of_filter. tauto.
  - apply sublist_filter.
  - rewrite list_filter_filter. apply list_filter_iff. tauto.
  - intros more. apply filter_app.
Qed.

Section Properties.
Context `{!Runtime}.

Lemma visit_union_over c (m0 m : catalog) :
  visit c (m0 ∪ m) = fresh ← visit c m0; mret (fresh ∪ m).
Proof.
  destruct (decide (is_ImageStates c)) as [Hc|Hc].
  - rewrite !visit_region, !stores_fill by done. apply fill_union_over.
  - unfold visit. rewrite !decide_False by done. reflexivity.
Qed.

Lemma traverse_node_in_union_over frames :
  ∀ n (m0 m : catalog),
    traverse_node_in frames n (m0 ∪ m)
    = fresh ← traverse_node_in frames n m0; mret (fresh ∪ m).
Proof.
  induction frames as [|frames IH]; intros n m0 m; [reflexivity|].
  rewrite !traverse_node_in_S. revert m0.
  induction (childNodes n) as [|c cs IHcs]; intros m0; [reflexivity|].
  rewrite !for_each_cons, visit_union_over.
  destruct (visit c m0) as [m1|e]; run; [|reflexivity].
  rewrite IH. destruct (traverse_node_in frames c m1) as [m2|e]; run; [|reflexivity].
  apply IHcs.
Qed.

(** The traversal never leaves an empty dict in the catalog: if the
    catalog it is given has none, the catalog it returns has none. *)
Theorem traverse_node_stores_no_empty_set (doc : node) (uid_contours uid_contours' : catalog) :
  (∀ uid cs, uid_contours !! uid = Some cs → size cs ≠ 0%nat) →
  traverse_node doc uid_contours = Ok uid_contours' →
  ∀ uid cs, uid_contours' !! uid = Some cs → size cs ≠ 0%nat.
Proof.
  intros Hstart Htraverse uid cs Hcs. apply traverse_node_fill in Htraverse.
  destruct (fill_origin _ _ _ _ _ _ _ _ Htraverse Hcs) as [Hold|(o & _ & _ & _ & Hkeep)].
  - by eapply Hstart.
  - by apply bool_decide_eq_true in Hkeep.
Qed.

(** An entry of the returned catalog was in the catalog given, or is
    exactly the dict that [parse_contours] returns for one "Contours"
    element child of an image of that UID under an "ImageStates"
    element; dicts are never merged. *)
Theorem traverse_node_entry_origin (doc : node) (uid_contours uid_contours' : catalog)
    (uid : string) (cs : gmap string (list point)) :
  traverse_node doc uid_contours = Ok uid_contours' →
  uid_contours' !! uid = Some cs →
  uid_contours !! uid = Some cs ∨
  ∃ region image contours_node,
    region ∈ descendants doc ∧ is_ImageStates region ∧
    image ∈ keep_element_nodes (childNodes region) ∧ key image = uid ∧
    contours_node ∈ keep_element_nodes (childNodes image) ∧
    key contours_node = "Contours" ∧
    parse_contours contours_node = Ok cs ∧ size cs ≠ 0%nat.
Proof.
  intros Htraverse Hcs. apply traverse_node_fill in Htraverse.
  destruct (fill_origin _ _ _ _ _ _ _ _ Htraverse Hcs)
    as [Hold|([uid' cn] & Hocc & Hname & Hvalue & Hkeep)]; [by left|].
  right. simpl in *. subst uid'.
  apply elem_of_occurrences in Hocc
    as (region & image & Hregion & HIS & Himage & -> & Hcn & Hkey).
  apply bool_decide_eq_true in Hkeep. exists region, image, cn. done.
Qed.

(** The traversal removes no UID from the catalog, and leaves the entry
    of a UID alone when the document has no "Contours" node for it. *)
Theorem traverse_node_keeps_other_uids (doc : node) (uid_contours uid_contours' : catalog) :
  traverse_node doc uid_contours = Ok uid_contours' →
  dom uid_contours ⊆ dom uid_contours' ∧
  ∀ uid, (∀ contours_node, (uid, contours_node) ∉ occurrences doc) →
         uid_contours' !! uid = uid_contours !! uid.
Proof.
  intros Htraverse. apply traverse_node_fill in Htraverse. split.
  - intros uid Huid. apply elem_of_dom. apply elem_of_dom in Huid.
    by eapply fill_grows.
  - intros uid Hnone. eapply fill_untouched; [exact Htraverse|].
    intros [uid' cn] cs Hocc Hname. simpl in Hname. subst uid'.
    by destruct (Hnone cn).
Qed.

(** Traversing into a catalog is traversing into an empty one and merging
    the result over the catalog, the new entries winning; the exception,
    if any, is the same. *)
Theorem traverse_node_merges (doc : node) (uid_contours : catalog) :
  traverse_node doc uid_contours
  = fresh ← traverse_node doc ∅; mret (fresh ∪ uid_contours).
Proof.
  unfold traverse_node. rewrite <- traverse_node_in_union_over.
  by rewrite (left_id_L ∅ (∪)).
Qed.

(** The catalog of a document whose children are [cs1 ++ cs2] is the
    catalog of [cs2] merged over the catalog of [cs1]. *)
Theorem traverse_node_siblings (cs1 cs2 : list node) (uid_contours : catalog) :
  traverse_node (Document (cs1 ++ cs2)) uid_contours
  = first ← traverse_node (Document cs1) ∅;
    second ← traverse_node (Document cs2) ∅;
    mret (second ∪ (first ∪ uid_contours)).
Proof.
  unfold traverse_node. destruct recursion_budget as [|frames]; [reflexivity|].
  rewrite !traverse_node_in_S. cbn [childNodes]. rewrite for_each_app.
  pose proof (traverse_node_in_union_over (S frames)) as Hover.
  setoid_rewrite traverse_node_in_S in Hover.
  rewrite <- (left_id_L ∅ (∪) uid_contours) at 1.
  rewrite (Hover (Document cs1) ∅ uid_contours). cbn [childNodes].
  destruct (for_each _ cs1 ∅) as [first|e]; run; [|reflexivity].
  rewrite <- (left_id_L ∅ (∪) (first ∪ uid_contours)) at 1.
  apply (Hover (Document cs2) ∅ (first ∪ uid_contours)).
Qed.


(** Within the recursion limit the exception of the traversal is the
    exception of the first "Contours" node, in processing order, that
    [parse_contours] cannot read; the nodes after it play no part. *)
Theorem traverse_node_first_failure (doc : node) (uid_contours : catalog) (e : exn) :
  (height doc ≤ recursion_budget)%nat →
  traverse_node doc uid_contours = Raise e ↔
  ∃ pre o post,
    occurrences doc = pre ++ o :: post ∧
    (∀ o', o' ∈ pre → ∃ cs, parse_contours o'.2 = Ok cs) ∧
    parse_contours o.2 = Raise e.
Proof. intros Hheight. rewrite traverse_node_within_fill by done. apply fill_raises. Qed.

(** The exception of [parse_contours] is the exception of the first
    contour, in document order, that cannot be read. *)
Theorem parse_contours_first_failure (n : node) (e : exn) :
  parse_contours n = Raise e ↔
  ∃ pre contour post,
    keep_element_nodes (childNodes n) = pre ++ contour :: post ∧
    (∀ c, c ∈ pre → ∃ pts, contour_points c = Ok pts) ∧
    contour_points contour = Raise e.
Proof. rewrite parse_contours_fill. apply fill_raises. Qed.

(** The names in the dict [parse_contours] returns are the keys of the
    element children: there are at most as many as children, exactly as
    many when the keys are distinct, and each maps to the points of a
    child with that key. *)
Theorem parse_contours_names (n : node) (cs : gmap string (list point)) :
  parse_contours n = Ok cs →
  dom cs = list_to_set (key <$> keep_element_nodes (childNodes n)) ∧
  (size cs ≤ length (keep_element_nodes (childNodes n)))%nat ∧
  (NoDup (key <$> keep_element_nodes (childNodes n)) →
   size cs = length (keep_element_nodes (childNodes n))) ∧
  (∀ name pts, cs !! name = Some pts →
     ∃ contour, contour ∈ keep_element_nodes (childNodes n) ∧
                key contour = name ∧ contour_points contour = Ok pts).
Proof.
  rewrite parse_contours_fill. intros Hcs.
  assert (Hdom : dom cs = list_to_set (key <$> keep_element_nodes (childNodes n))).
  { rewrite (fill_dom _ _ _ _ _ _ (λ _, eq_refl) Hcs), dom_empty_L.
    by rewrite (left_id_L ∅ (∪)). }
  split; [exact Hdom|]. rewrite <- (size_dom (D := gset string) cs), Hdom.
  split; [|split].
  - rewrite <- (length_fmap key (keep_element_nodes (childNodes n))).
    apply size_list_to_set_le.
  - intros Hnodup. by rewrite size_list_to_set, length_fmap.
  - intros name pts Hlookup.
    destruct (fill_origin _ _ _ _ _ _ _ _ Hcs Hlookup) as [Hempty|(c & ? & ? & ? & _)].
    + by rewrite lookup_empty in Hempty.
    + by exists c.
Qed.

(** Where the "SubpixelResolution" children stand among the "Points"
    children does not matter: two contours with the same point records
    and the same resolutions, each in order, have the same points. *)
Theorem contour_points_ignores_position (child child' : node) (pts : list point) :
  records child = records child' →
  resolutions child = resolutions child' →
  contour_points child = Ok pts ↔ contour_points child' = Ok pts.
Proof. intros Hrec Hres. by rewrite !contour_points_ok, Hrec, Hres. Qed.

(** A resolution of 0 raises nothing: the contour is returned, and every
    coordinate of it is infinite or not a number. *)
Theorem zero_resolution_is_not_an_error (child : node) (raw : list point) :
  mapM parse_point (records child) = Ok raw →
  scale_from 1 (resolutions child) = Ok 0 →
  contour_points child = Ok (divide_point 0 <$> raw) ∧
  ∀ p, p ∈ divide_point 0 <$> raw → not_finite p.1 ∧ not_finite p.2.
Proof.
  intros Hraw Hs. split.
  - apply contour_points_ok. exists raw, 0, 0%float. done.
  - assert (Hdiv : ∀ x : float, not_finite (x / 0)).
    { intros x. unfold not_finite. rewrite div_spec.
      change (Prim2SF 0) with (S754_zero false).
      by destruct (Prim2SF x). }
    intros p Hp. apply list_elem_of_fmap in Hp as ([x y] & -> & _).
    split; apply Hdiv.
Qed.

(** When [parse_file] fails, no path but the output path is touched, and
    the output path only when the file was opened and the write failed:
    then it holds no pickle.  The exception is the one [minidom.parse]
    raised, or one raised by the traversal (of the MalformedRecord class,
    or [RecursionError]), or the one [open] raised, or the one the write
    raised. *)
Theorem parse_file_failure (xml_name coord_file : string) (fs fs' : gmap string catalog)
    (e : exn) :
  parse_file xml_name coord_file fs = (Raise e, fs') →
  (∀ path, path ≠ coord_file → fs' !! path = fs !! path) ∧
  ((minidom_parse xml_name = Raise e ∧ fs' = fs) ∨
   (∃ dom, minidom_parse xml_name = Ok dom ∧
           traverse_node dom ∅ = Raise e ∧
           (MalformedRecord e = true ∨ e = RecursionError) ∧ fs' = fs) ∨
   (∃ dom uid_contours,
      minidom_parse xml_name = Ok dom ∧
      traverse_node dom ∅ = Ok uid_contours ∧
      open_wb coord_file = Raise e ∧ fs' = fs) ∨
   (∃ dom uid_contours,
      minidom_parse xml_name = Ok dom ∧
      traverse_node dom ∅ = Ok uid_contours ∧
      open_wb coord_file = Ok () ∧
      pickle_dump coord_file uid_contours = Raise e ∧
      fs' !! coord_file = None)).
Proof.
  unfold parse_file. destruct (minidom_parse xml_name) as [dom|e'] eqn:Hdom; run.
  - destruct (traverse_node dom ∅) as [uc|e'] eqn:Htraverse.
    + destruct (open_wb coord_file) as [[]|e'] eqn:Hopen.
      * destruct (pickle_dump coord_file uc) as [[]|e'] eqn:Hdump; [discriminate|].
        intros [= <- <-]. split; [intros path Hpath; by apply lookup_delete_ne|].
        right. right. right. exists dom, uc. by rewrite lookup_delete_eq.
      * intros [= <- <-]. split; [done|]. right. right. left. by exists dom, uc.
    + intros [= <- <-]. split; [done|]. right. left. exists dom.
      split; [done|]. split; [done|]. split; [|done].
      by eapply traverse_node_raises.
  - intros [= <- <-]. split; [done|]. by left.
Qed.

(** When [parse_file] succeeds it has written the catalog of a traversal
    that started empty: what the output path held before is replaced, not
    merged; every other file is as it was; no dict written is empty. *)
Theorem parse_file_success (xml_name coord_file : string) (fs fs' : gmap string catalog) :
  parse_file xml_name coord_file fs = (Ok (), fs') →
  ∃ dom uid_contours,
    minidom_parse xml_name = Ok dom ∧
    traverse_node dom ∅ = Ok uid_contours ∧
    fs' !! coord_file = Some uid_contours ∧
    (∀ path, path ≠ coord_file → fs' !! path = fs !! path) ∧
    (∀ uid cs, uid_contours !! uid = Some cs → size cs ≠ 0%nat).
Proof.
  unfold parse_file. destruct (minidom_parse xml_name) as [dom|e'] eqn:Hdom; run;
    [|discriminate].
  destruct (traverse_node dom ∅) as [uc|e'] eqn:Htraverse; [|discriminate].
  destruct (open_wb coord_file) as [[]|e']; [|discriminate].
  destruct (pickle_dump coord_file uc) as [[]|e']; [|discriminate].
  intros [= <-]. exists dom, uc. split; [done|]. split; [done|].
  split; [apply lookup_insert_eq|]. split.
  - intros path Hpath. by apply lookup_insert_ne.
  - apply traverse_node_fill in Htraverse. intros uid cs Hcs.
    destruct (fill_origin _ _ _ _ _ _ _ _ Htraverse Hcs) as [Hold|(o & _ & _ & _ & Hkeep)].
    + by rewrite lookup_empty in Hold.
    + by apply bool_decide_eq_true in Hkeep.
Qed.

End Properties.

(** * The examples, run *)

#[local] Existing Instance example_runtime.

Ltac evaluate := vm_compute; reflexivity.
Ltac member := vm_compute; repeat first [left | right].
Ltac shallow := apply Nat.leb_le; vm_compute; reflexivity.

Lemma contour_points_scaled_witness :
  contour_points scaled_contour = Ok [(5, 10); (15, 20)]%float ∧
  contour_points unscaled_contour = Ok [(7, 9)]%float.
Proof.
  split.
  - destruct (contour_points_scaled scaled_contour [(10, 20); (30, 40)]%float
                2 2%float) as (_ & _ & _ & Hscaled & _); [evaluate ..|].
    by apply Hscaled.
  - destruct (contour_points_scaled unscaled_contour [(7, 9)]%float
                1 1%float) as (_ & _ & _ & _ & Hdefault); [evaluate ..|].
    by apply Hdefault.
Defined.

Lemma contour_points_in_document_order_witness :
  ∃ sf : float,
    length [(5, 10); (15, 20)]%float = length (records scaled_contour) ∧
    ∀ i rec, records scaled_contour !! i = Some rec →
             ∃ raw_point, parse_point rec = Ok raw_point ∧
                          [(5, 10); (15, 20)]%float !! i
                          = Some (divide_point sf raw_point).
Proof.
  destruct (contour_points_in_document_order scaled_contour) as (_ & Horder & _).
  apply Horder. evaluate.
Defined.

Lemma last_resolution_scales_witness :
  ∃ raw s sf,
    mapM parse_point (records rescaled_contour) = Ok raw ∧
    (∀ r', r' ∈ [resolution_2] → ∃ z, resolution r' = Ok z) ∧
    resolution resolution_4 = Ok s ∧
    float_of_int s = Ok sf ∧
    [(2, 3)]%float = divide_point sf <$> raw.
Proof.
  apply (last_resolution_scales rescaled_contour [resolution_2] resolution_4
           [(2, 3)]%float); evaluate.
Defined.

Lemma later_contour_wins_witness :
  ∃ cs pts2,
    parse_contours repeated_name_contours = Ok cs ∧
    contour_points relabelled_contour = Ok pts2 ∧
    cs !! "lv" = Some pts2 ∧
    cs !! "lv" = Some pts2.
Proof.
  apply (later_contour_wins repeated_name_contours [unscaled_contour]
           [pointless_contour] [rescaled_contour] scaled_contour relabelled_contour).
  - evaluate.
  - evaluate.
  - intros c Hc. apply list_elem_of_singleton in Hc as ->. by vm_compute.
  - intros c Hc. vm_compute in Hc.
    repeat (apply elem_of_cons in Hc as [->|Hc]; [eexists; evaluate|]).
    by apply elem_of_nil in Hc.
Defined.

Lemma pointless_contour_is_stored_witness :
  contour_points pointless_contour = Ok [] ∧
  (∀ contours, parse_contour pointless_contour contours
               = Ok (<["scar" := []]> contours)) ∧
  ∃ cs, parse_contours repeated_name_contours = Ok cs ∧
        is_Some (cs !! "scar") ∧
        ((∀ c', c' ∈ [relabelled_contour; rescaled_contour] → key c' ≠ "scar") →
         cs !! "scar" = Some []).
Proof.
  apply (pointless_contour_is_stored repeated_name_contours
           [unscaled_contour; scaled_contour] [relabelled_contour; rescaled_contour]
           pointless_contour).
  - evaluate.
  - evaluate.
  - intros c Hc. vm_compute in Hc.
    repeat (apply elem_of_cons in Hc as [->|Hc]; [eexists; evaluate|]).
    by apply elem_of_nil in Hc.
Defined.

Lemma missing_key_is_the_empty_string_witness :
  key keyless_contour = "" ∧
  (∃ cs, parse_contours keyless_contours = Ok cs ∧ is_Some (cs !! "")) ∧
  traverse_node keyless_document ∅ = Ok {[ "" := {[ "rv" := [(7, 9)%float] ]} ]} ∧
  ({[ "" := {[ "rv" := [(7, 9)%float] ]} ]} : catalog) !! ""
  = Some {[ "rv" := [(7, 9)%float] ]} ∧
  store_contours (key keyless_image) (item "Contours" [unscaled_contour]) ∅
  = Ok {[ "" := {[ "rv" := [(7, 9)%float] ]} ]}.
Proof.
  destruct missing_key_is_the_empty_string as (Hkey & Hcontour & Himage).
  split; [|split].
  - apply Hkey. reflexivity.
  - apply (Hcontour keyless_contours keyless_contour).
    + member.
    + reflexivity.
    + intros c Hc. vm_compute in Hc.
      repeat (apply elem_of_cons in Hc as [->|Hc]; [eexists; evaluate|]).
      by apply elem_of_nil in Hc.
  - assert (Htraverse : traverse_node keyless_document ∅
                        = Ok {[ "" := {[ "rv" := [(7, 9)%float] ]} ]}) by evaluate.
    split; [exact Htraverse|].
    destruct (Himage keyless_document (item "ImageStates" [keyless_image]) keyless_image
                (item "Contours" [unscaled_contour]) {[ "rv" := [(7, 9)%float] ]}
                ∅ {[ "" := {[ "rv" := [(7, 9)%float] ]} ]})
      as (_ & Hstore & _ & Hlast);
      [member | by vm_compute | member | reflexivity | member | reflexivity
       | evaluate | by vm_compute | exact Htraverse |].
    split.
    + apply (Hlast [] []); [evaluate|].
      intros cn cs Hin. by apply elem_of_nil in Hin.
    + rewrite Hstore. evaluate.
Defined.

Lemma traverse_node_no_ImageStates_witness :
  traverse_node plain_document ∅ = Ok ∅ ∧
  parse_file "plain.xml" "out.pickle" ∅ = (Ok (), {[ "out.pickle" := ∅ ]}).
Proof.
  destruct (traverse_node_no_ImageStates plain_document) as (Hempty & _ & Hfile).
  - shallow.
  - intros d Hd Hel. vm_compute in Hd.
    repeat (apply elem_of_cons in Hd as [->|Hd]; [by vm_compute|]).
    by apply elem_of_nil in Hd.
  - split; [exact Hempty|]. apply Hfile; reflexivity.
Defined.

Lemma nest_descendants_have_no_key depth :
  ∀ d, d ∈ descendants (nest depth []) → key d = "".
Proof.
  induction depth as [|depth IH]; intros d Hd.
  - by apply elem_of_nil in Hd.
  - rewrite descendants_children in Hd. cbn [nest childNodes] in Hd.
    rewrite bind_cons, app_nil_r in Hd.
    apply elem_of_cons in Hd as [->|Hd]; [by destruct depth | by apply IH].
Qed.

(** C7 as stated fails: 1500 nested elements without any "ImageStates"
    exceed the recursion limit and the traversal raises. *)
Lemma deep_document_overflows :
  ¬ (∀ doc,
       (∀ d, d ∈ descendants doc → nodeType d = ELEMENT_NODE →
             key d ≠ "ImageStates") →
       traverse_node doc ∅ = Ok ∅).
Proof.
  intros Hclaim.
  enough (Hok : traverse_node deep_plain_document ∅ = Ok ∅)
    by (vm_compute in Hok; discriminate Hok).
  apply Hclaim. intros d Hd _.
  rewrite descendants_children in Hd. cbn [deep_plain_document childNodes] in Hd.
  rewrite bind_cons, app_nil_r in Hd.
  apply elem_of_cons in Hd as [->|Hd]; [by vm_compute|].
  by rewrite (nest_descendants_have_no_key _ _ Hd).
Qed.

(** C1 as stated fails: an image whose only contour is named and empty is
    in the catalog. *)
Lemma named_empty_contour_is_cataloged :
  ¬ (∀ doc uid contours_node cs uid_contours,
       (uid, contours_node) ∈ occurrences doc →
       parse_contours contours_node = Ok cs →
       (∀ name pts, cs !! name = Some pts → pts = []) →
       traverse_node doc ∅ = Ok uid_contours →
       uid_contours !! uid = None).
Proof.
  intros Hclaim.
  enough (Hnone : ({[ "1.2.3" := {[ "lv" := [] ]} ]} : catalog) !! "1.2.3" = None)
    by (vm_compute in Hnone; discriminate).
  apply (Hclaim named_empty_document "1.2.3" named_empty_contours {[ "lv" := [] ]}).
  - member.
  - evaluate.
  - intros name pts Hlookup. by apply lookup_singleton_Some in Hlookup as [_ <-].
  - evaluate.
Qed.

Lemma uid_absent_iff_no_contour_witness :
  traverse_node no_contour_document ∅ = Ok no_contour_catalog ∧
  no_contour_catalog !! "1.2.3" = None.
Proof.
  assert (Htraverse : traverse_node no_contour_document ∅ = Ok no_contour_catalog)
    by evaluate.
  split; [exact Htraverse|].
  apply (proj2 (uid_absent_iff_no_contour no_contour_document "1.2.3" _ Htraverse)).
  intros cn Hocc. vm_compute in Hocc.
  apply elem_of_cons in Hocc as [[= ->]|Hocc].
  - reflexivity.
  - apply list_elem_of_singleton in Hocc. discriminate Hocc.
Defined.

(** C4 as stated fails: of two images with the UID "1.2.3" the later one
    in the document loses when the earlier one lies in a region nested in
    an image of the later one's region. *)
Lemma nested_region_later_uid_loses :
  ¬ (∀ doc pre post uid contours_node cs uid_contours,
       document_order doc = pre ++ (uid, contours_node) :: post →
       parse_contours contours_node = Ok cs →
       size cs ≠ 0%nat →
       (∀ contours_node' cs',
          (uid, contours_node') ∈ post →
          parse_contours contours_node' = Ok cs' → size cs' = 0%nat) →
       traverse_node doc ∅ = Ok uid_contours →
       uid_contours !! uid = Some cs).
Proof.
  intros Hclaim.
  enough (Hwins : ({[ "1.2.3" := early_set ]} : catalog) !! "1.2.3" = Some late_set).
  { apply (f_equal (λ o, o ≫= (.!! "first"))) in Hwins.
    vm_compute in Hwins. discriminate. }
  apply (Hclaim nested_regions_document [("1.2.3", early_contours)] []
           "1.2.3" late_contours).
  - evaluate.
  - evaluate.
  - by vm_compute.
  - intros cn cs Hin. by apply elem_of_nil in Hin.
  - evaluate.
Qed.

Lemma later_occurrence_wins_witness :
  ∃ uid_contours,
    traverse_node side_by_side_document ∅ = Ok uid_contours ∧
    uid_contours !! "1.2.3" = Some late_set ∧
    document_order side_by_side_document
    = [("1.2.3", early_contours); ("1.2.3", late_contours); ("7.8.9", empty_contours)].
Proof.
  exists {[ "1.2.3" := late_set ]}.
  assert (Htraverse : traverse_node side_by_side_document ∅
                      = Ok {[ "1.2.3" := late_set ]}) by evaluate.
  split; [exact Htraverse|]. split; [|evaluate].
  destruct (later_occurrence_wins side_by_side_document
              [("1.2.3", early_contours)] [("7.8.9", empty_contours)]
              "1.2.3" late_contours late_set ∅ {[ "1.2.3" := late_set ]})
    as [_ Hdocument]; [evaluate | by vm_compute | | exact Htraverse |].
  - intros cn cs Hin. apply list_elem_of_singleton in Hin. discriminate Hin.
  - apply Hdocument; [by intros [? _] | | evaluate].
    intros region d Hregion Hd [_ Hkey]. vm_compute in Hregion.
    repeat (apply elem_of_cons in Hregion as [->|Hregion];
            [vm_compute in Hd;
             repeat (apply elem_of_cons in Hd as [->|Hd]; [discriminate Hkey|]);
             by apply elem_of_nil in Hd|]).
    by apply elem_of_nil in Hregion.
Defined.

(** C2 as stated fails, three times over.  A malformed record under a
    "Points" node that the traversal never reads does not stop the parse,
    and the output is written.  A record that the traversal reads and
    whose "Point:x" holds a comment and no text is read as a point: what
    counts is the data of the first child, and a comment has data.  And
    behind 1500 nested elements a malformed record is never reached: the
    exception is [RecursionError], not one of the MalformedRecord
    class. *)
Lemma malformed_record_claim_fails :
  ¬ (∀ doc points rec xml_name coord_file fs,
       points ∈ descendants doc →
       nodeType points = ELEMENT_NODE →
       key points = "Points" →
       rec ∈ keep_element_nodes (childNodes points) →
       without_coordinate_text rec →
       minidom_parse xml_name = Ok doc →
       ∃ e, MalformedRecord e = true ∧
            parse_file xml_name coord_file fs = (Raise e, fs)) ∧
  ¬ (∀ doc rec xml_name coord_file fs,
       extracted_record doc rec →
       without_coordinate_text rec →
       (height doc ≤ recursion_budget)%nat →
       minidom_parse xml_name = Ok doc →
       ∃ e, MalformedRecord e = true ∧
            parse_file xml_name coord_file fs = (Raise e, fs)) ∧
  ¬ (∀ doc rec xml_name coord_file fs,
       extracted_record doc rec →
       malformed_record rec →
       minidom_parse xml_name = Ok doc →
       ∃ e, MalformedRecord e = true ∧
            parse_file xml_name coord_file fs = (Raise e, fs)).
Proof.
  split; [|split]; intros Hclaim.
  - destruct (Hclaim stray_points_document stray_points stray_record
                "stray.xml" "out.pickle" ∅) as (e & _ & Hfile).
    + member.
    + reflexivity.
    + reflexivity.
    + member.
    + right. left. evaluate.
    + reflexivity.
    + vm_compute in Hfile. discriminate Hfile.
  - destruct (Hclaim commented_document commented_record
                "commented.xml" "out.pickle" ∅) as (e & _ & Hfile).
    + exists "1.2.3", (item "Contours" [item "lv" [item "Points" [commented_record]]]),
             (item "lv" [item "Points" [commented_record]]).
      split; [member|]. split; member.
    + right. right. exists "Point:x", (Element "Point:x" ∅ [CharacterData Comment "5"]).
      split; [by left|]. split; evaluate.
    + shallow.
    + reflexivity.
    + vm_compute in Hfile. discriminate Hfile.
  - destruct (Hclaim deep_malformed_document stray_record
                "deep-malformed.xml" "out.pickle" ∅) as (e & Hclass & Hfile).
    + exists "1.2.3", malformed_contours, malformed_contour.
      split; [member|]. split; member.
    + right. by vm_compute.
    + reflexivity.
    + vm_compute in Hfile. injection Hfile as <-. discriminate Hclass.
Qed.

Lemma malformed_record_aborts_witness :
  ∃ e, traverse_node malformed_document ∅ = Raise e ∧
       parse_file "malformed.xml" "out.pickle" ∅ = (Raise e, ∅) ∧
       (MalformedRecord e = true ∨ e = RecursionError) ∧
       ((height malformed_document ≤ recursion_budget)%nat → MalformedRecord e = true).
Proof.
  apply (malformed_record_aborts malformed_document stray_record).
  - exists "1.2.3", malformed_contours, malformed_contour.
    split; [member|]. split; member.
  - right. by vm_compute.
  - reflexivity.
Defined.

Lemma traverse_node_stores_no_empty_set_witness :
  traverse_node side_by_side_document ∅ = Ok {[ "1.2.3" := late_set ]} ∧
  size late_set ≠ 0%nat.
Proof.
  assert (Htraverse : traverse_node side_by_side_document ∅
                      = Ok {[ "1.2.3" := late_set ]}) by evaluate.
  split; [exact Htraverse|].
  apply (traverse_node_stores_no_empty_set side_by_side_document ∅
           {[ "1.2.3" := late_set ]}) with (uid := "1.2.3");
    [|exact Htraverse|evaluate].
  intros uid cs Hcs. by rewrite lookup_empty in Hcs.
Defined.

Lemma traverse_node_entry_origin_witness :
  (∅ : catalog) !! "4.5.6" = Some {[ "rv" := [(7, 9)%float] ]} ∨
  ∃ region image contours_node,
    region ∈ descendants no_contour_document ∧ is_ImageStates region ∧
    image ∈ keep_element_nodes (childNodes region) ∧ key image = "4.5.6" ∧
    contours_node ∈ keep_element_nodes (childNodes image) ∧
    key contours_node = "Contours" ∧
    parse_contours contours_node = Ok {[ "rv" := [(7, 9)%float] ]} ∧
    size ({[ "rv" := [(7, 9)%float] ]} : gmap string (list point)) ≠ 0%nat.
Proof.
  apply (traverse_node_entry_origin no_contour_document ∅ no_contour_catalog);
    evaluate.
Defined.

Lemma traverse_node_keeps_other_uids_witness :
  dom ({[ "9.9.9" := early_set ]} : catalog)
  ⊆ dom ({[ "1.2.3" := late_set; "9.9.9" := early_set ]} : catalog) ∧
  ∀ uid, (∀ contours_node, (uid, contours_node) ∉ occurrences side_by_side_document) →
         ({[ "1.2.3" := late_set; "9.9.9" := early_set ]} : catalog) !! uid
         = ({[ "9.9.9" := early_set ]} : catalog) !! uid.
Proof.
  apply (traverse_node_keeps_other_uids side_by_side_document). evaluate.
Defined.

Lemma traverse_node_first_failure_witness :
  traverse_node unreadable_document ∅ = Raise ValueError.
Proof.
  apply traverse_node_first_failure; [shallow|].
  exists [("1.2.3", item "Contours" [unscaled_contour])],
         ("4.5.6", unreadable_contours), [].
  split; [evaluate|]. split; [|evaluate].
  intros o Ho. apply list_elem_of_singleton in Ho as ->. eexists. evaluate.
Defined.


Lemma parse_contours_first_failure_witness :
  parse_contours unreadable_contours = Raise ValueError.
Proof.
  apply parse_contours_first_failure.
  exists [unscaled_contour], unreadable_contour, [malformed_contour].
  split; [evaluate|]. split; [|evaluate].
  intros c Hc. apply list_elem_of_singleton in Hc as ->. eexists. evaluate.
Defined.

Lemma parse_contours_names_witness :
  dom repeated_name_set
  = list_to_set (key <$> keep_element_nodes (childNodes repeated_name_contours)) ∧
  (size repeated_name_set
   ≤ length (keep_element_nodes (childNodes repeated_name_contours)))%nat ∧
  (NoDup (key <$> keep_element_nodes (childNodes repeated_name_contours)) →
   size repeated_name_set
   = length (keep_element_nodes (childNodes repeated_name_contours))) ∧
  (∀ name pts, repeated_name_set !! name = Some pts →
     ∃ contour, contour ∈ keep_element_nodes (childNodes repeated_name_contours) ∧
                key contour = name ∧ contour_points contour = Ok pts).
Proof. apply (parse_contours_names repeated_name_contours). evaluate. Defined.

Lemma contour_points_ignores_position_witness :
  contour_points scaled_contour = Ok [(5, 10); (15, 20)]%float ↔
  contour_points prescaled_contour = Ok [(5, 10); (15, 20)]%float.
Proof. apply contour_points_ignores_position; evaluate. Defined.

Lemma zero_resolution_is_not_an_error_witness :
  contour_points unscalable_contour = Ok (divide_point 0 <$> [(7, 9)%float]) ∧
  ∀ p, p ∈ divide_point 0 <$> [(7, 9)%float] → not_finite p.1 ∧ not_finite p.2.
Proof. apply zero_resolution_is_not_an_error; evaluate. Defined.

Lemma parse_file_failure_witness :
  (∀ path, path ≠ "/dev/full" →
           delete "/dev/full" earlier_files !! path = earlier_files !! path) ∧
  ∃ dom uid_contours,
    minidom_parse (Runtime := study_runtime) "study.xml" = Ok dom ∧
    traverse_node (H := study_runtime) dom ∅ = Ok uid_contours ∧
    open_wb (Runtime := study_runtime) "/dev/full" = Ok () ∧
    pickle_dump (Runtime := study_runtime) "/dev/full" uid_contours = Raise OSError ∧
    delete "/dev/full" earlier_files !! "/dev/full" = None.
Proof.
  destruct (parse_file_failure (H := study_runtime) "study.xml" "/dev/full"
              earlier_files (delete "/dev/full" earlier_files) OSError)
    as [Hothers Hcases]; [evaluate|].
  split; [exact Hothers|].
  destruct Hcases as [[Hparse _]|[(dom & _ & _ & [Hclass|Hdeep] & _)
                                 |[(dom & uid_contours & _ & _ & Hopen & _)|Hdump]]].
  - vm_compute in Hparse. discriminate Hparse.
  - discriminate Hclass.
  - discriminate Hdeep.
  - vm_compute in Hopen. discriminate Hopen.
  - exact Hdump.
Defined.

Lemma parse_file_success_witness :
  ∃ dom uid_contours,
    minidom_parse (Runtime := study_runtime) "study.xml" = Ok dom ∧
    traverse_node (H := study_runtime) dom ∅ = Ok uid_contours ∧
    (<[ "out.pickle" := {[ "1.2.3" := late_set ]} ]> earlier_files : gmap string catalog)
      !! "out.pickle" = Some uid_contours ∧
    (∀ path, path ≠ "out.pickle" →
             (<[ "out.pickle" := {[ "1.2.3" := late_set ]} ]> earlier_files
              : gmap string catalog) !! path = earlier_files !! path) ∧
    (∀ uid cs, uid_contours !! uid = Some cs → size cs ≠ 0%nat).
Proof.
  apply (parse_file_success (H := study_runtime) "study.xml" "out.pickle" earlier_files).
  evaluate.
Defined.
